(** * node-progress: a shallow embedding of [lib/node-progress.js]

    The development follows the source file top to bottom:

    - [JS]      the fragment of the JavaScript runtime the program relies on:
                strings as sequences of UTF-16 code units, [String.prototype.replace]
                with a string pattern, numbers with [NaN] and the infinities,
                [Math.floor], [Math.round], [toFixed(0)] and number-to-string;
    - [Model]   the module-level registry ([bars], [barLines], [barInc]), the
                [ProgressBar] objects, the timers and every function of the file;
    - the properties of the render/format engine, of the sampler and of the
      tick state machine.

    Modelling conventions.  Counters ([curr], [total], [sample], [width],
    [columns], clock readings) are JavaScript numbers that hold integers; they
    are values of [Z].  Quotients are values of [num], whose finite part is an
    exact rational: binary64 rounding and the sign of zero are not modelled.
    A property that depends on the arithmetic names the range on which the
    source computes what the model computes: counters between [-2^53] and
    [2^53], where binary64 addition is exact, and quotients away from the
    points where a rounding is decided (a half before [Math.round] or
    [toFixed], a whole number before [Math.floor]).
    Objects live in a heap indexed by the bar identifier, so that the aliases
    [barLines[id].me] of the source denote the very object they alias.  Hooks
    supplied by the caller are recorded in the trace as events and do not call
    back into the bar; [onUpdate], which [tick] calls unguarded, is taken to
    be absent or a function. *)

From Stdlib Require Import ZArith QArith Qround Lia Lqa String Ascii DecimalString.
From stdpp Require Import gmap list fin_maps.

Local Open Scope Z_scope.

(* ===================================================================== *)
(** * The JavaScript fragment *)
(* ===================================================================== *)

Module JS.

(** ** Strings: lists of UTF-16 code units *)

Definition str := list N.

Definition lit (s : string) : str :=
  List.map N_of_ascii (list_ascii_of_string s).

Definition colon : N := 58%N.
Definition dollar : N := 36%N.

(** [p] is a prefix of [s]. *)
Fixpoint prefixb (p s : str) : bool :=
  match p, s with
  | [], _ => true
  | _ :: _, [] => false
  | c :: p', d :: s' => (c =? d)%N && prefixb p' s'
  end.

(** [String.prototype.indexOf]: position of the first occurrence. *)
Fixpoint indexOf (p s : str) : option nat :=
  if prefixb p s then Some 0%nat
  else match s with
       | [] => None
       | _ :: s' => S <$> indexOf p s'
       end.

(** [GetSubstitution] for a string pattern: there are no captures, so only
    [$$], [$&], [$`] and [$'] are special in the replacement text. *)
Fixpoint getSubstitution (matched before after r : str) : str :=
  match r with
  | [] => []
  | c :: r' =>
      if (c =? dollar)%N then
        match r' with
        | d :: r'' =>
            if (d =? dollar)%N then dollar :: getSubstitution matched before after r''
            else if (d =? 38)%N then matched ++ getSubstitution matched before after r''
            else if (d =? 96)%N then before ++ getSubstitution matched before after r''
            else if (d =? 39)%N then after ++ getSubstitution matched before after r''
            else c :: getSubstitution matched before after r'
        | [] => [c]
        end
      else c :: getSubstitution matched before after r'
  end.

(** [s.replace(p, r)] with a string pattern [p]: the first occurrence only. *)
Definition replace (p r s : str) : str :=
  match indexOf p s with
  | None => s
  | Some i =>
      let before := take i s in
      let after := drop (i + length p) s in
      before ++ getSubstitution p before after r ++ after
  end.

(** [Array(n + 1).join(g)]: [n] copies of [g]. *)
Definition repeatStr (g : str) (n : nat) : str := concat (replicate n g).

(** [Array(len).join(g)] for an integer [len >= 0]. *)
Definition arrayJoin (len : Z) (g : str) : str :=
  repeatStr g (Z.to_nat len - 1).

(** [s.slice(0, -1)] *)
Definition sliceInit (s : str) : str := take (length s - 1) s.


(** ** Numbers *)

Inductive num :=
| NaN
| PInf
| NInf
| Fin (q : Q).

Definition ofZ (z : Z) : num := Fin (inject_Z z).

Definition Qsgn (q : Q) : Z := Z.sgn (Qnum q).

Definition nneg (x : num) : num :=
  match x with
  | NaN => NaN
  | PInf => NInf
  | NInf => PInf
  | Fin q => Fin (- q)
  end.

Definition ndiv (x y : num) : num :=
  match x, y with
  | NaN, _ | _, NaN => NaN
  | Fin a, Fin b =>
      if Qsgn b =? 0 then
        match Qsgn a with
        | Z0 => NaN
        | Zpos _ => PInf
        | Zneg _ => NInf
        end
      else Fin (a / b)
  | Fin _, _ => Fin 0
  | PInf, Fin b => if Qsgn b <? 0 then NInf else PInf
  | NInf, Fin b => if Qsgn b <? 0 then PInf else NInf
  | _, _ => NaN
  end.

Definition nmul (x y : num) : num :=
  match x, y with
  | NaN, _ | _, NaN => NaN
  | Fin a, Fin b => Fin (a * b)
  | Fin a, PInf | PInf, Fin a =>
      match Qsgn a with Z0 => NaN | Zpos _ => PInf | Zneg _ => NInf end
  | Fin a, NInf | NInf, Fin a =>
      match Qsgn a with Z0 => NaN | Zpos _ => NInf | Zneg _ => PInf end
  | PInf, PInf | NInf, NInf => PInf
  | PInf, NInf | NInf, PInf => NInf
  end.

Definition nadd (x y : num) : num :=
  match x, y with
  | NaN, _ | _, NaN => NaN
  | Fin a, Fin b => Fin (a + b)
  | PInf, NInf | NInf, PInf => NaN
  | PInf, _ | _, PInf => PInf
  | NInf, _ | _, NInf => NInf
  end.

Definition nsub (x y : num) : num := nadd x (nneg y).

(** [Math.floor] *)
Definition floor (x : num) : num :=
  match x with
  | Fin q => ofZ (Qfloor q)
  | _ => x
  end.

(** [Math.round]: to the nearest integer, halves towards [+Infinity]. *)
Definition round (x : num) : num :=
  match x with
  | Fin q => ofZ (Qfloor (q + (1 # 2)))
  | _ => x
  end.

(** [Math.max(x, y)] and [Math.min(x, y)]: [NaN] is contagious. *)
Definition max (x y : num) : num :=
  match x, y with
  | NaN, _ | _, NaN => NaN
  | PInf, _ | _, PInf => PInf
  | NInf, z | z, NInf => z
  | Fin a, Fin b => if Qle_bool a b then Fin b else Fin a
  end.

Definition min (x y : num) : num :=
  match x, y with
  | NaN, _ | _, NaN => NaN
  | NInf, _ | _, NInf => NInf
  | PInf, z | z, PInf => z
  | Fin a, Fin b => if Qle_bool a b then Fin a else Fin b
  end.

(** [x > 0] *)
Definition gt0 (x : num) : bool :=
  match x with
  | PInf => true
  | Fin q => 0 <? Qsgn q
  | _ => false
  end.

(** [x === Infinity] *)
Definition isPInf (x : num) : bool :=
  match x with PInf => true | _ => false end.

(** ** Numbers to strings *)

Definition Z_toString (z : Z) : str := lit (NilZero.string_of_int (Z.to_int z)).

(** Digits of [r / d] after the decimal point, at most [fuel] of them. *)
Fixpoint fracDigits (fuel : nat) (r d : Z) : str :=
  match fuel with
  | O => []
  | S f =>
      if r =? 0 then []
      else N.of_nat (48 + Z.to_nat (10 * r / d)) :: fracDigits f (10 * r mod d) d
  end.

(** [Number.prototype.toString] on a non-negative rational [n / d].  The
    expansion is exact when it is finite and short, which is the case of every
    value the program converts (integers and tenths). *)
Definition Qabs_toString (n d : Z) : str :=
  let ip := n / d in
  let r := n mod d in
  if r =? 0 then Z_toString ip
  else Z_toString ip ++ lit "." ++ fracDigits 17 r d.

Definition toString (x : num) : str :=
  match x with
  | NaN => lit "NaN"
  | PInf => lit "Infinity"
  | NInf => lit "-Infinity"
  | Fin q =>
      let n := Qnum q in
      let d := Zpos (Qden q) in
      if n <? 0 then lit "-" ++ Qabs_toString (- n) d else Qabs_toString n d
  end.

(** [x.toFixed(0)]: the nearest integer, halves away from zero, and a minus
    sign for every negative [x] (so [(-0.4).toFixed(0)] is ["-0"]). *)
Definition toFixed0 (x : num) : str :=
  match x with
  | Fin q =>
      if Qsgn q <? 0 then lit "-" ++ Z_toString (Qfloor (- q + (1 # 2)))
      else Z_toString (Qfloor (q + (1 # 2)))
  | _ => toString x
  end.

End JS.

(* ===================================================================== *)
(** * The program *)
(* ===================================================================== *)

Module Model.
Import JS.

Definition Id := nat.
Definition Handle := nat.

(** [var newLine = "\033[1B"] *)
Definition newLine : str := 27%N :: lit "[1B".

(** ** Values supplied by the caller *)

Inductive jsval :=
| JUndefined
| JNull
| JBool (b : bool)
| JNumber (z : Z)
| JString (s : str)
| JObject.

(** ['number' === typeof v] *)
Definition isNumber (v : jsval) : bool :=
  match v with JNumber _ => true | _ => false end.

(** A hook option: absent, a function, or some other truthy value. *)
Inductive hookopt := HAbsent | HFunction | HOther.

Definition hookIsFunction (h : hookopt) : bool :=
  match h with HOther => false | _ => true end.

Record Options := mkOptions {
  o_total : jsval;
  o_format : option str;
  o_width : option Z;
  o_complete : option str;
  o_incomplete : option str;
  o_head : option str;
  o_debounce : option Z;
  o_onComplete : hookopt;
  o_onTick : hookopt;
  o_onTickFmt : option str;
  o_justMe : bool;
  o_noRender : bool;
  o_clear : bool;
  o_title : option str;
  o_delay : option Z;
  o_onStart : hookopt
}.

(** [o || d] on strings and on numbers *)
Definition orStr (o : option str) (d : str) : str :=
  match o with
  | Some (c :: s) => c :: s
  | _ => d
  end.

Definition orZ (o : option Z) (d : Z) : Z :=
  match o with
  | Some 0 | None => d
  | Some z => z
  end.

(** [options.debounce || null] *)
Definition orNull (o : option Z) : option Z :=
  match o with
  | Some 0 | None => None
  | Some z => Some z
  end.

(** ** Objects *)

Record Chars := mkChars {
  ch_complete : str;
  ch_incomplete : str;
  ch_head : str
}.

Record Report := mkReport {
  r_title : str;
  r_barId : Id;
  r_counted : Z;
  r_expected : Z;
  r_totalTime : str;
  r_precisionTotalTime : num;
  r_sampledOpsPerSec : num;
  r_generalOpsPerSec : num
}.

(** The value of [me.percent]: the number [0], then a string. *)
Inductive value :=
| VNum (x : num)
| VStr (s : str).

(** Fields assigned by the constructor only. *)
Record Config := mkConfig {
  fmt : str;
  total : Z;
  width : Z;
  chars : Chars;
  startTime : Z;
  onComplete : bool;
  onTick : bool;
  onTickFmt : str;
  justMe : bool;
  noRender : bool;
  clear : bool;
  title : str;
  logResult : bool;
  delay : Z
}.

(** A [ProgressBar] object; [timeSamples] is the array its sampler closes over. *)
Record Bar := mkBar {
  id : Id;
  cfg : Config;
  curr : Z;
  sample : Z;
  complete : bool;
  percent : value;
  lastDraw : str;
  writeLimit : option Handle;
  debounceLimit : option Z;
  elapsedTime : num;
  opsPerSec : num;
  totalOpsPerSec : num;
  report : option Report;
  timeSamples : list Z;
  sampleTimer : bool
}.

Definition set_curr (v : Z) (b : Bar) : Bar :=
  mkBar (id b) (cfg b) v (sample b) (complete b) (percent b) (lastDraw b) (writeLimit b)
    (debounceLimit b) (elapsedTime b) (opsPerSec b) (totalOpsPerSec b) (report b)
    (timeSamples b) (sampleTimer b).
Definition set_sample (v : Z) (b : Bar) : Bar :=
  mkBar (id b) (cfg b) (curr b) v (complete b) (percent b) (lastDraw b) (writeLimit b)
    (debounceLimit b) (elapsedTime b) (opsPerSec b) (totalOpsPerSec b) (report b)
    (timeSamples b) (sampleTimer b).
Definition set_complete (v : bool) (b : Bar) : Bar :=
  mkBar (id b) (cfg b) (curr b) (sample b) v (percent b) (lastDraw b) (writeLimit b)
    (debounceLimit b) (elapsedTime b) (opsPerSec b) (totalOpsPerSec b) (report b)
    (timeSamples b) (sampleTimer b).
Definition set_percent (v : value) (b : Bar) : Bar :=
  mkBar (id b) (cfg b) (curr b) (sample b) (complete b) v (lastDraw b) (writeLimit b)
    (debounceLimit b) (elapsedTime b) (opsPerSec b) (totalOpsPerSec b) (report b)
    (timeSamples b) (sampleTimer b).
Definition set_lastDraw (v : str) (b : Bar) : Bar :=
  mkBar (id b) (cfg b) (curr b) (sample b) (complete b) (percent b) v (writeLimit b)
    (debounceLimit b) (elapsedTime b) (opsPerSec b) (totalOpsPerSec b) (report b)
    (timeSamples b) (sampleTimer b).
Definition set_writeLimit (v : option Handle) (b : Bar) : Bar :=
  mkBar (id b) (cfg b) (curr b) (sample b) (complete b) (percent b) (lastDraw b) v
    (debounceLimit b) (elapsedTime b) (opsPerSec b) (totalOpsPerSec b) (report b)
    (timeSamples b) (sampleTimer b).
Definition set_debounceLimit (v : option Z) (b : Bar) : Bar :=
  mkBar (id b) (cfg b) (curr b) (sample b) (complete b) (percent b) (lastDraw b) (writeLimit b)
    v (elapsedTime b) (opsPerSec b) (totalOpsPerSec b) (report b)
    (timeSamples b) (sampleTimer b).
Definition set_elapsedTime (v : num) (b : Bar) : Bar :=
  mkBar (id b) (cfg b) (curr b) (sample b) (complete b) (percent b) (lastDraw b) (writeLimit b)
    (debounceLimit b) v (opsPerSec b) (totalOpsPerSec b) (report b)
    (timeSamples b) (sampleTimer b).
Definition set_opsPerSec (v : num) (b : Bar) : Bar :=
  mkBar (id b) (cfg b) (curr b) (sample b) (complete b) (percent b) (lastDraw b) (writeLimit b)
    (debounceLimit b) (elapsedTime b) v (totalOpsPerSec b) (report b)
    (timeSamples b) (sampleTimer b).
Definition set_totalOpsPerSec (v : num) (b : Bar) : Bar :=
  mkBar (id b) (cfg b) (curr b) (sample b) (complete b) (percent b) (lastDraw b) (writeLimit b)
    (debounceLimit b) (elapsedTime b) (opsPerSec b) v (report b)
    (timeSamples b) (sampleTimer b).
Definition set_report (v : option Report) (b : Bar) : Bar :=
  mkBar (id b) (cfg b) (curr b) (sample b) (complete b) (percent b) (lastDraw b) (writeLimit b)
    (debounceLimit b) (elapsedTime b) (opsPerSec b) (totalOpsPerSec b) v
    (timeSamples b) (sampleTimer b).
Definition set_timeSamples (v : list Z) (b : Bar) : Bar :=
  mkBar (id b) (cfg b) (curr b) (sample b) (complete b) (percent b) (lastDraw b) (writeLimit b)
    (debounceLimit b) (elapsedTime b) (opsPerSec b) (totalOpsPerSec b) (report b)
    v (sampleTimer b).
Definition set_sampleTimer (v : bool) (b : Bar) : Bar :=
  mkBar (id b) (cfg b) (curr b) (sample b) (complete b) (percent b) (lastDraw b) (writeLimit b)
    (debounceLimit b) (elapsedTime b) (opsPerSec b) (totalOpsPerSec b) (report b)
    (timeSamples b) v.

(** ** The outside world *)

(** What one call observes of its environment: the reading of
    [process.hrtime] in nanoseconds, [stream.columns] and whether
    [process.platform === 'win32']. *)
Record Env := mkEnv {
  hrtime : Z;
  columns : Z;
  win32 : bool
}.

Inductive logarg :=
| LStr (s : str)
| LReport (r : option Report).

(** Calls on the terminal stream of a bar, hook invocations, [console.log]. *)
Inductive event :=
| ClearLine (bar : Id) (dir : option Z)
| CursorTo (bar : Id) (x : Z)
| Write (bar : Id) (s : str)
| OnStart (bar : Id)
| OnTick (bar : Id) (s : str)
| OnUpdate (bar : Id)
| OnComplete (bar : Id)
| ConsoleLog (args : list logarg).

(** Module-level state, the object heap, the armed [setTimeout] callbacks
    (each closes over one bar) and the trace of effects, oldest first. *)
Record World := mkWorld {
  barInc : nat;
  bars : list Id;
  barLines : gmap Id str;
  heap : gmap Id Bar;
  timeouts : list (Handle * Id);
  nextHandle : Handle;
  trace : list event
}.

Definition initial : World := mkWorld 0%nat [] ∅ ∅ [] 0%nat [].

Definition set_heap (h : gmap Id Bar) (w : World) : World :=
  mkWorld (barInc w) (bars w) (barLines w) h (timeouts w) (nextHandle w) (trace w).
Definition set_barLines (l : gmap Id str) (w : World) : World :=
  mkWorld (barInc w) (bars w) l (heap w) (timeouts w) (nextHandle w) (trace w).
Definition set_timeouts (t : list (Handle * Id)) (w : World) : World :=
  mkWorld (barInc w) (bars w) (barLines w) (heap w) t (nextHandle w) (trace w).
Definition set_nextHandle (n : Handle) (w : World) : World :=
  mkWorld (barInc w) (bars w) (barLines w) (heap w) (timeouts w) n (trace w).
Definition emit (es : list event) (w : World) : World :=
  mkWorld (barInc w) (bars w) (barLines w) (heap w) (timeouts w) (nextHandle w) (trace w ++ es).

(** An assignment to fields of the object [i]. *)
Definition update (i : Id) (f : Bar -> Bar) (w : World) : World :=
  set_heap (alter f i (heap w)) w.

(** ** Time *)

(** [timeDiff(start)]: the clock is read as a number of nanoseconds. *)
Definition timeDiff (e : Env) (start : Z) : num :=
  ndiv (ofZ (hrtime e - start)) (ofZ 1000000000).

Definition secondsToMin (sec : num) : str :=
  let hour := ofZ (60 * 60) in
  let min := ofZ 60 in
  let totalTimeHr := floor (ndiv sec hour) in
  let totalTimeMin := floor (ndiv (nsub sec (nmul totalTimeHr hour)) min) in
  let totalTimeSec := floor (nsub (nsub sec (nmul totalTimeMin min)) (nmul totalTimeHr hour)) in
  (if gt0 totalTimeHr then toString totalTimeHr ++ lit "hr " else [])
    ++ toString totalTimeMin ++ lit "min " ++ toString totalTimeSec ++ lit "sec".

(** [ProgressBar.prototype.elapsed]: returns the string and leaves
    [totalOpsPerSec] and [elapsedTime] assigned. *)
Definition elapsed (e : Env) (me : Bar) : Bar * str :=
  let t := timeDiff e (startTime (cfg me)) in
  let me := set_totalOpsPerSec
              (ndiv (floor (nmul (ndiv (ofZ (curr me)) t) (ofZ 10))) (ofZ 10)) me in
  let me := set_elapsedTime t me in
  (me, secondsToMin (ndiv (floor (nmul t (ofZ 1000))) (ofZ 1000))).

(** [ProgressBar.prototype.timeRemaining] *)
Definition timeRemaining (me : Bar) : str :=
  let ticksLeft := total (cfg me) - curr me in
  let timeLeft := ndiv (ofZ ticksLeft) (opsPerSec me) in
  let timeLeft := if isPInf timeLeft then ofZ 0 else timeLeft in
  secondsToMin timeLeft.

(** ** Formatting *)

Definition ansi (code : string) : str := 27%N :: lit code.

(** The chain of [.replace] calls of [doFormat], as the table of patterns and
    replacement values in the order in which they are applied.  The only call
    with an effect is [me.elapsed()]; no other value reads what it assigns. *)
Definition tokenTable (e : Env) (me : Bar) (percent : num) : Bar * list (str * str) :=
  let '(me1, el) := elapsed e me in
  (me1,
   [ (lit ":c[blue]", ansi "[1;34m");
     (lit ":c[white]", ansi "[1;37m");
     (lit ":c[yellow]", ansi "[1;33m");
     (lit ":c[red]", ansi "[1;31m");
     (lit ":c[none]", ansi "[0m");
     (lit ":nl", newLine);
     (lit ":current", Z_toString (curr me));
     (lit ":total", Z_toString (total (cfg me)));
     (lit ":elapsed", el);
     (lit ":eta", timeRemaining me1);
     (lit ":percent", toFixed0 percent ++ lit "%");
     (lit ":opsec", toString (opsPerSec me1)) ]).

Definition replaceAll1 (table : list (str * str)) (s : str) : str :=
  foldl (fun s pr => replace pr.1 pr.2 s) s table.

(** [Math.max(0, me.stream.columns - str.replace(':bar', '').length)], less
    one on Windows when it is not zero. *)
Definition availableSpace (e : Env) (s : str) : Z :=
  let a := Z.max 0 (columns e - Z.of_nat (length (replace (lit ":bar") [] s))) in
  if negb (a =? 0) && win32 e then a - 1 else a.

(** [ratio = Math.min(Math.max(me.curr / me.total, 0), 1)] *)
Definition ratioOf (me : Bar) : num :=
  min (max (ndiv (ofZ (curr me)) (ofZ (total (cfg me)))) (ofZ 0)) (ofZ 1).

(** [completeLength = Math.round(width * ratio); if (!completeLength)
    completeLength = 0].  A clamped ratio is [NaN] or finite, so the product
    is never infinite. *)
Definition completeLength (width : Z) (ratio : num) : Z :=
  match round (nmul (ofZ width) ratio) with
  | Fin q => Qfloor q
  | _ => 0
  end.

Definition buildBar (c : Chars) (width : Z) (ratio : num) : str :=
  let completeLength := completeLength width ratio in
  let complete := arrayJoin (Z.max 0 (completeLength + 1)) (ch_complete c) in
  let incomplete := arrayJoin (Z.max 0 (width - completeLength + 1)) (ch_incomplete c) in
  let complete :=
    if 0 <? completeLength then sliceInit complete ++ ch_head c else complete in
  complete ++ incomplete.

Definition doFormat (e : Env) (me : Bar) (format : str) : Bar * str :=
  let percent := nmul (ndiv (ofZ (curr me)) (ofZ (total (cfg me)))) (ofZ 100) in
  let ratio := ratioOf me in
  let me := set_percent (VStr (toFixed0 percent)) me in
  let '(me, table) := tokenTable e me percent in
  let s := replaceAll1 table format in
  let width := Z.min (width (cfg me)) (availableSpace e s) in
  (me, replace (lit ":bar") (buildBar (chars (cfg me)) width ratio) s).

(** ** Rendering *)

Definition buildReport (me : Bar) : Bar :=
  set_report
    (Some (mkReport (title (cfg me)) (id me) (curr me) (total (cfg me))
             (secondsToMin (elapsedTime me)) (elapsedTime me)
             (opsPerSec me) (totalOpsPerSec me)))
    me.

(** [Object.keys(barLines)]: the keys are bar identifiers, enumerated in
    ascending order. *)
Definition keys (lines : gmap Id str) (n : nat) : list Id :=
  filter (fun k => is_Some (lines !! k)) (seq 1 n).

(** One iteration of the [forEach] of [doRender]; [d] is [me.delay]. *)
Definition stackStep (d : Z) (lines : gmap Id str)
    (acc : gmap Id Bar * str) (item : Id) : gmap Id Bar * str :=
  match acc.1 !! item, lines !! item with
  | Some b, Some s =>
      (if justMe (cfg b) then <[item := set_debounceLimit (Some d) b]> acc.1 else acc.1,
       acc.2 ++ title (cfg b) ++ s ++ newLine ++ lit " ")
  | _, _ => acc
  end.

(** The body of [doRender] once [str] is computed: [fs] is the object as
    [doFormat] leaves it, and the string. *)
Definition draw (i : Id) (d : Z) (fs : Bar * str) (w : World) : World :=
  let s := fs.2 in
  let w1 := set_barLines (<[i := s]> (barLines w)) (set_heap (<[i := fs.1]> (heap w)) w) in
  let ks := keys (barLines w1) (barInc w1) in
  let hb :=
    if (1 <? length ks)%nat
    then foldl (stackStep d (barLines w1)) (heap w1, []) ks
    else (heap w1, s) in
  let w2 := set_heap hb.1 w1 in
  match hb.1 !! i with
  | None => w2
  | Some me2 =>
      if negb (bool_decide (lastDraw me2 = s)) && negb (complete me2)
      then update i (set_lastDraw s)
             (emit [ClearLine i (Some 1); CursorTo i 0;
                    Write i (if justMe (cfg me2) then s else hb.2)] w2)
      else w2
  end.

Definition doRender (e : Env) (i : Id) (w : World) : World :=
  match heap w !! i with
  | None => w
  | Some me =>
      if noRender (cfg me) then w
      else draw i (delay (cfg me))
             (doFormat e me (title (cfg me) ++ lit " " ++ fmt (cfg me))) w
  end.

(** [ProgressBar.prototype.terminate]; the stream is a terminal, so
    [stream.clearLine] exists. *)
Definition terminate (i : Id) (w : World) : World :=
  match heap w !! i with
  | None => w
  | Some me =>
      if clear (cfg me) then emit [ClearLine i None; CursorTo i 0] w
      else emit [Write i [10%N]] w
  end.

Definition logReport (i : Id) (w : World) : World :=
  match heap w !! i with
  | None => w
  | Some me =>
      emit [ConsoleLog [LStr newLine];
            ConsoleLog [LStr (lit "Ready: "); LStr (title (cfg me))];
            ConsoleLog [LReport (report me)];
            ConsoleLog [LStr newLine]] w
  end.

(** [!this.debounceLimit] *)
Definition noDebounce (d : option Z) : bool :=
  match d with
  | Some 0 | None => true
  | Some _ => false
  end.

(** [this.writeLimit = setTimeout(..., this.debounceLimit)] *)
Definition schedule (i : Id) (w : World) : World :=
  let h := nextHandle w in
  update i (set_writeLimit (Some h))
    (set_nextHandle (S h) (set_timeouts (timeouts w ++ [(h, i)]) w)).

(** [ProgressBar.prototype.render].  In the completion branch
    [this.writeLimit.clearTimeout()] always throws ([writeLimit] is [null] or a
    [Timeout], which has no such method) and the exception is swallowed: the
    statement has no effect. *)
Definition render (e : Env) (i : Id) (w : World) : World :=
  match heap w !! i with
  | None => w
  | Some me =>
      if curr me =? total (cfg me) then
        let w := update i (set_sampleTimer false) w in
        let w := doRender e i w in
        let w := update i buildReport w in
        if onComplete (cfg me) then
          let w := terminate i w in
          let w := emit [OnComplete i] w in
          let w := update i (set_complete true) w in
          if logResult (cfg me) then logReport i w else w
        else w
      else if noDebounce (debounceLimit me) then doRender e i w
      else
        match writeLimit me with
        | Some _ => w
        | None => schedule i w
        end
  end.

(** ** Ticking *)

Definition setTick (e : Env) (i : Id) (newTick : Z) (w : World) : World :=
  match heap w !! i with
  | None => w
  | Some me =>
      let w := update i (set_curr newTick) w in
      if total (cfg me) <? newTick then update i (set_complete true) w
      else render e i w
  end.

(** [if (len !== 0) len = len || 1]; [None] is a call without argument. *)
Definition lenOf (len : option Z) : Z :=
  match len with
  | Some z => z
  | None => 1
  end.

Definition tick (e : Env) (i : Id) (len : option Z) (w : World) : World :=
  match heap w !! i with
  | None => w
  | Some me =>
      let len := lenOf len in
      let w := update i (set_sample (sample me + len)) w in
      let w := update i (set_curr (curr me + len)) w in
      if total (cfg me) <? curr me + len then update i (set_complete true) w
      else
        let w :=
          if onTick (cfg me) then
            match heap w !! i with
            | None => w
            | Some me1 =>
                emit [OnTick i (doFormat e me1 (onTickFmt (cfg me1))).2]
                  (update i (fun b => (doFormat e b (onTickFmt (cfg b))).1) w)
            end
          else w in
        let w := emit [OnUpdate i] w in
        render e i w
  end.

(** ** The remaining methods *)

Definition interrupt (i : Id) (message : str) (w : World) : World :=
  match heap w !! i with
  | None => w
  | Some me =>
      emit [ClearLine i None; CursorTo i 0; Write i message; Write i [10%N];
            Write i (lastDraw me)] w
  end.

Definition clearLine (i : Id) (w : World) : World :=
  emit [CursorTo i 0; Write i []; ClearLine i (Some 1)] w.

(** ** Timer callbacks *)

Definition sampleCountMax : nat := 20.

(** The body of the [setInterval] callback of the constructor. *)
Definition sampler (me : Bar) : Bar :=
  let pushed := timeSamples me ++ [sample me] in
  let me := set_sample 0 (set_timeSamples pushed me) in
  let ts := if (sampleCountMax <? length pushed)%nat then tail pushed else pushed in
  let me := set_timeSamples ts me in
  let sum := foldl Z.add 0 ts in
  set_opsPerSec
    (ndiv (floor (nmul (ndiv (ofZ sum) (ofZ (Z.of_nat (length ts)))) (ofZ 10))) (ofZ 10))
    me.

(** The interval fires only until [clearInterval(this.sampleTimer)]. *)
Definition samplerFires (i : Id) (w : World) : World :=
  match heap w !! i with
  | None => w
  | Some me => if sampleTimer me then update i sampler w else w
  end.

Fixpoint armed (h : Handle) (ts : list (Handle * Id)) : option Id :=
  match ts with
  | [] => None
  | (h', i) :: ts' => if (h =? h')%nat then Some i else armed h ts'
  end.

Fixpoint disarm (h : Handle) (ts : list (Handle * Id)) : list (Handle * Id) :=
  match ts with
  | [] => []
  | (h', i) :: ts' => if (h =? h')%nat then ts' else (h', i) :: disarm h ts'
  end.

(** The body of the [setTimeout] callback of [render]: it closes over the
    object, not over a copy of its fields. *)
Definition timeoutFires (e : Env) (h : Handle) (w : World) : World :=
  match armed h (timeouts w) with
  | None => w
  | Some i =>
      let w := set_timeouts (disarm h (timeouts w)) w in
      let w := doRender e i w in
      update i (set_writeLimit None) w
  end.

(** ** Construction *)

Definition construct (e : Env) (i : Id) (o : Options) (t : Z) : Bar :=
  mkBar i
    (mkConfig
       (orStr (o_format o) (lit "[:bar] :percent"))
       t
       (orZ (o_width o) 40)
       (mkChars (orStr (o_complete o) [9608%N])
                (orStr (o_incomplete o) [9617%N])
                (orStr (o_head o) (orStr (o_complete o) (lit "="))))
       (hrtime e)
       (hookIsFunction (o_onComplete o))
       (hookIsFunction (o_onTick o))
       (orStr (o_onTickFmt o) (lit ":current / :total (:percent)"))
       (o_justMe o)
       (o_noRender o)
       (o_clear o)
       (orStr (o_title o) (lit "->"))
       true
       (orZ (o_delay o) 1000))
    0 0 false (VNum (ofZ 0)) [] None (orNull (o_debounce o))
    (Fin (1 # 10000)) (ofZ 0) (ofZ 0) None [] true.

(** [new ProgressBar(options)].  The registry is updated before [total] is
    checked.  The last statement, [me.onStart.call(this)], is not guarded: an
    [onStart] option that is truthy and not a function makes it throw, when
    the object is built and its sampler interval armed; the interval keeps
    the object alive, so it is in the heap although the caller gets no
    reference.  The result is the error message or the new object. *)
Definition ProgressBar (e : Env) (o : Options) (w : World) : World * (str + Id) :=
  let i := S (barInc w) in
  let w :=
    mkWorld i (bars w ++ [i]) (barLines w) (heap w) (timeouts w) (nextHandle w) (trace w) in
  match o_total o with
  | JNumber t =>
      let w := set_heap (<[i := construct e i o t]> (heap w)) w in
      if hookIsFunction (o_onStart o) then (emit [OnStart i] w, inr i)
      else (w, inl (lit "me.onStart.call is not a function"))
  | _ => (w, inl (lit "total required"))
  end.

(** ** Runs *)

Inductive action :=
| New (o : Options)
| Tick (i : Id) (len : option Z)
| SetTick (i : Id) (newTick : Z)
| Render (i : Id)
| Elapsed (i : Id)
| Interrupt (i : Id) (message : str)
| ClearLineOf (i : Id)
| Terminate (i : Id)
| LogReport (i : Id)
| SamplerFires (i : Id)
| TimeoutFires (h : Handle).

Definition step (w : World) (ea : Env * action) : World :=
  let e := ea.1 in
  match ea.2 with
  | New o => (ProgressBar e o w).1
  | Tick i len => tick e i len w
  | SetTick i v => setTick e i v w
  | Render i => render e i w
  | Elapsed i => update i (fun me => (elapsed e me).1) w
  | Interrupt i m => interrupt i m w
  | ClearLineOf i => clearLine i w
  | Terminate i => terminate i w
  | LogReport i => logReport i w
  | SamplerFires i => samplerFires i w
  | TimeoutFires h => timeoutFires e h w
  end.

Definition run (l : list (Env * action)) (w : World) : World := foldl step w l.

End Model.

(* ===================================================================== *)
(** * Vocabulary of the properties *)
(* ===================================================================== *)

Module Spec.
Import JS Model.

(** ** Tokens *)

Definition colonfree (s : str) : bool := forallb (fun c => negb (c =? colon)%N) s.

(** A token is a colon followed by colon-free text. *)
Definition tokenlike (t : str) : bool :=
  match t with
  | c :: t' => (c =? colon)%N && colonfree t'
  | [] => false
  end.

(** [t] and [u] differ at a position that both have. *)
Fixpoint diverge (t u : str) : bool :=
  match t, u with
  | c :: t', d :: u' => if (c =? d)%N then diverge t' u' else true
  | _, _ => false
  end.

(** The patterns of the replace chain of [doFormat], in order. *)
Definition patterns : list str :=
  [ lit ":c[blue]"; lit ":c[white]"; lit ":c[yellow]"; lit ":c[red]"; lit ":c[none]";
    lit ":nl"; lit ":current"; lit ":total"; lit ":elapsed"; lit ":eta";
    lit ":percent"; lit ":opsec" ].

(** The recognised tokens: the chain, then [:bar]. *)
Definition tokens : list str := patterns ++ [lit ":bar"].



(** ** The bar *)




(** The template after the substitution of every token but [:bar]. *)
Definition substituted (e : Env) (me : Bar) (format : str) : str :=
  let percent := nmul (ndiv (ofZ (curr me)) (ofZ (total (cfg me)))) (ofZ 100) in
  replaceAll1 (tokenTable e (set_percent (VStr (toFixed0 percent)) me) percent).2 format.





(** ** Objects up to [debounceLimit] *)

(** [doRender] may assign [debounceLimit] on any registered bar; everything
    else it does to another bar's object is nothing. *)
Definition eraseDeb (b : Bar) : Bar := set_debounceLimit None b.

(** The frame [doRender] formats for a bar. *)
Definition frame (e : Env) (me : Bar) : str :=
  (doFormat e me (title (cfg me) ++ lit " " ++ fmt (cfg me))).2.

(** The fields neither formatting, nor drawing, nor scheduling assigns. *)
Definition core (b : Bar) : Bar :=
  set_percent (VNum NaN)
    (set_lastDraw []
       (set_writeLimit None
          (set_debounceLimit None
             (set_elapsedTime NaN (set_totalOpsPerSec NaN b))))).

(** ** Objects over time *)

(** [b] is a later state of the object [a]: the same object with the same
    configuration; a set [complete] flag stays set, a cleared sampler stays
    cleared, and a sample window within its capacity stays within it. *)
Definition later (a b : Bar) : Prop :=
  id b = id a /\ cfg b = cfg a
  /\ (complete a = true -> complete b = true)
  /\ (sampleTimer a = false -> sampleTimer b = false)
  /\ ((length (timeSamples a) <= sampleCountMax)%nat ->
      (length (timeSamples b) <= sampleCountMax)%nat).

(** Every object of [w] is still there in [w'], in a later state, [w'] has
    no other object, and the registry of identifiers is the same. *)
Definition evolves (w w' : World) : Prop :=
  barInc w' = barInc w /\ bars w' = bars w
  /\ forall j : Id, option_Forall2 later (heap w !! j) (heap w' !! j).

(** ** The sample window *)



(** The window after the tally [x] is pushed: the oldest sample is evicted
    when the capacity is exceeded. *)
Definition pushed (ts : list Z) (x : Z) : list Z :=
  if (sampleCountMax <? length (ts ++ [x]))%nat then tail (ts ++ [x]) else ts ++ [x].


(** The controller is Running: not complete, sampler armed. *)
Definition Running (b : Bar) : Prop := complete b = false /\ sampleTimer b = true.

(** The sum of the deltas of a sequence of [tick] calls. *)
Definition sumLen (l : list (Env * option Z)) : Z :=
  foldr (fun x acc => lenOf x.2 + acc) 0 l.

(** A sequence of [tick] calls on the bar [i]. *)
Definition ticks (i : Id) (l : list (Env * option Z)) (w : World) : World :=
  foldl (fun w x => tick x.1 i x.2 w) w l.

(** The bars whose debounced render is armed, one entry per timer. *)
Definition pending (w : World) : list Id := (timeouts w).*2.

(** The timers and the [writeLimit] fields agree. *)
Definition timersOk (w : World) : Prop :=
  NoDup (pending w)
  /\ (forall j : Id, j ∈ pending w -> (j <= barInc w)%nat)
  /\ (forall j : Id, is_Some (heap w !! j) -> (j <= barInc w)%nat)
  /\ (forall (j : Id) me, heap w !! j = Some me -> writeLimit me = None -> j ∉ pending w).

(** [w'] has the timers, the identifiers and the [writeLimit] fields of [w]. *)
Definition sameTimers (w w' : World) : Prop :=
  timeouts w' = timeouts w /\ barInc w' = barInc w
  /\ forall j : Id, writeLimit <$> heap w' !! j = writeLimit <$> heap w !! j.

(** ** Traces *)

Definition isOnComplete (i : Id) (ev : event) : bool :=
  match ev with
  | OnComplete j => (i =? j)%nat
  | _ => false
  end.

(** How many times the completion hook of [i] ran. *)
Definition completions (i : Id) (t : list event) : nat :=
  length (List.filter (isOnComplete i) t).


(** The strings written to the terminal, oldest first. *)
Definition writes (t : list event) : list str :=
  omap (fun ev => match ev with Write _ s => Some s | _ => None end) t.

End Spec.

(** * Sample inputs *)

Module Sample.
Import JS Model.

Definition env0 : Env := mkEnv 0 80 false.

(** [{ total: t, format: f }] *)
Definition options (t : jsval) (f : option str) : Options :=
  mkOptions t f None None None None None HAbsent HAbsent None false false false None None HAbsent.

(** [{ total: t, format: f, width: w, complete: '=', incomplete: '-', head: '>' }] *)
Definition plain (t : Z) (f : str) (w : Z) : Options :=
  mkOptions (JNumber t) (Some f) (Some w) (Some (lit "=")) (Some (lit "-")) (Some (lit ">"))
    None HAbsent HAbsent None false false false None None HAbsent.

(** A bar as the constructor leaves it, moved to [curr = c]. *)
Definition barAt (o : Options) (t c : Z) : Bar := set_curr c (construct env0 1%nat o t).

End Sample.

(** * Further vocabulary *)

Module Notions.
Import JS Model Spec.

(** ** Time *)

(** Hours, minutes and seconds of a whole number of seconds, as
    [secondsToMin] prints them: the hours only when positive. *)
Definition hms (z : Z) : str :=
  (if 0 <? z / 3600 then Z_toString (z / 3600) ++ lit "hr " else [])
    ++ Z_toString (z mod 3600 / 60) ++ lit "min " ++ Z_toString (z mod 60) ++ lit "sec".

(** ** Events *)




(** ** The registry *)

(** The identifiers handed out so far are 1, 2, ... in order, and every
    object carries the identifier it is registered under. *)
Definition registryOk (w : World) : Prop :=
  bars w = seq 1 (barInc w)
  /\ forall (j : Id) me, heap w !! j = Some me -> id me = j /\ (1 <= j <= barInc w)%nat.

(** A configuration as the constructor can build it: no empty text, no zero
    width or delay, and the report is logged. *)
Definition configOk (c : Config) : Prop :=
  fmt c <> [] /\ title c <> [] /\ onTickFmt c <> []
  /\ ch_complete (chars c) <> [] /\ ch_incomplete (chars c) <> []
  /\ ch_head (chars c) <> []
  /\ width c <> 0 /\ delay c <> 0 /\ logResult c = true.

(** ** Templates *)

(** Text without a colon and without a dollar sign: it holds no token and is
    copied as it is when used as a replacement. *)
Definition inert (s : str) : bool :=
  forallb (fun c => negb (c =? colon)%N && negb (c =? dollar)%N) s.

(** The tokens of the replace chain with the values [doFormat] gives them. *)
Definition tokenValues (e : Env) (me : Bar) : list (str * str) :=
  let percent := nmul (ndiv (ofZ (curr me)) (ofZ (total (cfg me)))) (ofZ 100) in
  (tokenTable e (set_percent (VStr (toFixed0 percent)) me) percent).2.

(** Any two different patterns of a list differ at a common position. *)
Definition pairwiseDiverge (ps : list str) : bool :=
  forallb (fun p => forallb (fun q => bool_decide (p = q) || diverge p q) ps) ps.

(** The bar a call is made on; a construction and a timer have none. *)
Definition target (a : action) : option Id :=
  match a with
  | New _ | TimeoutFires _ => None
  | Tick i _ | SetTick i _ | Render i | Elapsed i | Interrupt i _ | ClearLineOf i
  | Terminate i | LogReport i | SamplerFires i => Some i
  end.

(** [w'] has the objects of [w] other than [i], up to [debounceLimit]. *)
Definition apart (i : Id) (w w' : World) : Prop :=
  forall j : Id, j <> i -> eraseDeb <$> heap w' !! j = eraseDeb <$> heap w !! j.

(** ** What a draw writes *)

(** One line of the stacked output: title, frame, line feed, blank. *)
Definition textStep (h : gmap Id Bar) (lines : gmap Id str) (acc : str) (k : Id) : str :=
  match h !! k, lines !! k with
  | Some b, Some s => acc ++ title (cfg b) ++ s ++ newLine ++ lit " "
  | _, _ => acc
  end.

(** The string [doRender] writes for the bar [i] with frame [fr]: the frame
    for a [justMe] bar or when no other bar has a line, else the lines of all
    the bars, in the order of their identifiers. *)
Definition written (w : World) (i : Id) (me : Bar) (fr : str) : str :=
  let lines := <[i := fr]> (barLines w) in
  let ks := keys lines (barInc w) in
  if justMe (cfg me) then fr
  else if (1 <? length ks)%nat then foldl (textStep (heap w) lines) [] ks
  else fr.

(** ** Substitution in context *)

(** [c] occurs in no pattern of the chain. *)
Definition alien (c : N) : bool :=
  forallb (forallb (fun x => negb (x =? c)%N)) patterns.

(** A replacement value that no token can run into: it starts with a
    character that occurs in no token, and holds no [:] and no [$]. *)
Definition foreign (v : str) : bool :=
  match v with
  | c :: _ => alien c && inert v
  | [] => false
  end.







(** ** The range of exact counters *)

(** An integer that binary64 holds exactly together with its neighbours: on
    such counters the additions and comparisons of the source are the ones
    of [Z]. *)
Definition safe (z : Z) : Prop := - 2 ^ 53 <= z <= 2 ^ 53.

(** The values a counter takes from [c] through the deltas of [l]. *)
Fixpoint sums (c : Z) (l : list (Env * option Z)) : list Z :=
  match l with
  | [] => []
  | x :: l' => (c + lenOf x.2) :: sums (c + lenOf x.2) l'
  end.




End Notions.

(* ===================================================================== *)
(** * Strings: occurrences and [replace] *)
(* ===================================================================== *)

Module StringFacts.
Import JS Model Spec.








Lemma tokenlike_inv (t : str) :
  tokenlike t = true -> exists t', t = colon :: t' /\ colonfree t' = true.
Proof.
  destruct t as [|c t]; [done|]. simpl.
  intros [Hc H]%andb_true_iff. apply N.eqb_eq in Hc as ->. eauto.
Qed.




Lemma diverge_prefixb (t u b : str) :
  diverge t u = true -> prefixb t (u ++ b) = false.
Proof.
  revert u; induction t as [|c t IH]; intros [|d u]; simpl; try done.
  destruct (c =? d)%N; [apply IH | done].
Qed.




Lemma tokenTable_patterns (e : Env) (me : Bar) (p : num) :
  (tokenTable e me p).2.*1 = patterns.
Proof. reflexivity. Qed.

End StringFacts.

(* ===================================================================== *)
(** * The format engine *)
(* ===================================================================== *)

Module FormatFacts.
Import JS Model Spec Sample Notions StringFacts.


(** The string returned by [doFormat]. *)
Lemma doFormat_string (e : Env) (me : Bar) (format : str) :
  (doFormat e me format).2
  = replace (lit ":bar")
      (buildBar (chars (cfg me))
         (Z.min (width (cfg me)) (availableSpace e (substituted e me format)))
         (ratioOf me))
      (substituted e me format).
Proof. unfold substituted. reflexivity. Qed.

Lemma substituted_table (e : Env) (me : Bar) (format : str) :
  exists table, table.*1 = patterns /\ substituted e me format = replaceAll1 table format.
Proof. unfold substituted. eexists. split; [|reflexivity]. reflexivity. Qed.




(** The second [:current] of a template is still there in the output. *)
Example second_occurrence_stays :
  (doFormat env0 (barAt (options (JNumber 10) None) 10 5) (lit ":current of :current")).2
  = lit "5 of :current".
Proof. vm_compute. reflexivity. Qed.

(** ** The bar *)




















(** ** Remaining time *)

Lemma secondsToMin_0 : secondsToMin (ofZ 0) = lit "0min 0sec".
Proof. vm_compute. reflexivity. Qed.

Lemma secondsToMin_NaN : secondsToMin NaN = lit "NaNmin NaNsec".
Proof. vm_compute. reflexivity. Qed.

Lemma secondsToMin_NInf : secondsToMin NInf = lit "NaNmin NaNsec".
Proof. vm_compute. reflexivity. Qed.

(** With a zero rate and ticks left, the quotient is [Infinity] and is
    replaced by 0. *)
Lemma timeRemaining_zero_rate_pending (me : Bar) (q : Q) :
  opsPerSec me = Fin q -> Qsgn q = 0 -> curr me < total (cfg me) ->
  timeRemaining me = lit "0min 0sec".
Proof.
  intros Hq H0 Hlt. unfold timeRemaining, ndiv, ofZ. rewrite Hq, H0. simpl Z.eqb.
  assert (Hs : Qsgn (inject_Z (total (cfg me) - curr me)) = 1).
  { unfold Qsgn. simpl. lia. }
  rewrite Hs. simpl isPInf. apply secondsToMin_0.
Qed.

(** With a zero rate and no tick left, the quotient is [0 / 0]. *)
Lemma timeRemaining_zero_rate_done (me : Bar) (q : Q) :
  opsPerSec me = Fin q -> Qsgn q = 0 -> curr me = total (cfg me) ->
  timeRemaining me = lit "NaNmin NaNsec".
Proof.
  intros Hq H0 Heq. unfold timeRemaining, ndiv, ofZ. rewrite Hq, H0, Heq, Z.sub_diag.
  simpl. apply secondsToMin_NaN.
Qed.

(** With a zero rate and an overshoot, the quotient is [-Infinity]. *)
Lemma timeRemaining_zero_rate_over (me : Bar) (q : Q) :
  opsPerSec me = Fin q -> Qsgn q = 0 -> total (cfg me) < curr me ->
  timeRemaining me = lit "NaNmin NaNsec".
Proof.
  intros Hq H0 Hlt. unfold timeRemaining, ndiv, ofZ. rewrite Hq, H0. simpl Z.eqb.
  assert (Hs : Qsgn (inject_Z (total (cfg me) - curr me)) = -1).
  { unfold Qsgn. simpl. lia. }
  rewrite Hs. simpl isPInf. apply secondsToMin_NInf.
Qed.

(** C5 (the code at the failing input).  A bar of one tick, drawn with the
    template [":eta"], is ticked once before the sampler has fired: the rate
    is 0, nothing is left, and the last frame shows [NaNmin NaNsec]. *)
Theorem eta_of_finished_bar_is_NaN :
  let w := run [ (env0, New (options (JNumber 1) (Some (lit ":eta"))));
                 (env0, Tick 1%nat None) ] initial in
  (opsPerSec <$> heap w !! 1%nat) = Some (ofZ 0)
  /\ writes (trace w) = [lit "-> NaNmin NaNsec"; [10%N]].
Proof. vm_compute. split; reflexivity. Qed.

(** ** Effects of formatting *)

(** The string depends on the configuration, [curr] and [opsPerSec] only. *)
Lemma doFormat_string_ext (e : Env) (me1 me2 : Bar) (format : str) :
  cfg me1 = cfg me2 -> curr me1 = curr me2 -> opsPerSec me1 = opsPerSec me2 ->
  (doFormat e me1 format).2 = (doFormat e me2 format).2.
Proof.
  destruct me1, me2. simpl. intros -> -> ->. reflexivity.
Qed.

(** The object after formatting. *)
Lemma doFormat_object (e : Env) (me : Bar) (format : str) :
  (doFormat e me format).1
  = (elapsed e (set_percent
                  (VStr (toFixed0 (nmul (ndiv (ofZ (curr me)) (ofZ (total (cfg me))))
                                        (ofZ 100)))) me)).1.
Proof. reflexivity. Qed.

(** C9 as stated fails: formatting assigns [me.percent]. *)
Lemma doFormat_changes_the_state :
  let me := barAt (options (JNumber 10) None) 10 5 in
  percent me = VNum (ofZ 0)
  /\ percent (doFormat env0 me (lit ":percent")).1 = VStr (lit "50")
  /\ (doFormat env0 me (lit ":percent")).1 <> me.
Proof.
  cbv zeta. split; [reflexivity|]. split; [vm_compute; reflexivity|].
  intros H. apply (f_equal percent) in H. vm_compute in H. discriminate.
Qed.

(** The fields of the object after formatting. *)
Lemma doFormat_fields (e : Env) (me : Bar) (format : str) :
  let me' := (doFormat e me format).1 in
  id me' = id me /\ cfg me' = cfg me /\ curr me' = curr me /\ sample me' = sample me
  /\ complete me' = complete me /\ lastDraw me' = lastDraw me
  /\ writeLimit me' = writeLimit me /\ debounceLimit me' = debounceLimit me
  /\ opsPerSec me' = opsPerSec me /\ report me' = report me
  /\ timeSamples me' = timeSamples me /\ sampleTimer me' = sampleTimer me
  /\ percent me'
     = VStr (toFixed0 (nmul (ndiv (ofZ (curr me)) (ofZ (total (cfg me)))) (ofZ 100)))
  /\ elapsedTime me' = timeDiff e (startTime (cfg me))
  /\ totalOpsPerSec me'
     = ndiv (floor (nmul (ndiv (ofZ (curr me)) (timeDiff e (startTime (cfg me)))) (ofZ 10)))
         (ofZ 10).
Proof. cbv zeta. repeat split; reflexivity. Qed.

(** C9 (amended).  [doFormat] assigns [percent] and, through [elapsed()],
    [totalOpsPerSec] and [elapsedTime]; every other field of the object keeps
    its value, and formatting the resulting object again, at the same clock
    reading and column width, returns the same string. *)
Theorem doFormat_effects (e : Env) (me : Bar) (format : str) :
  let me' := (doFormat e me format).1 in
  id me' = id me /\ cfg me' = cfg me /\ curr me' = curr me /\ sample me' = sample me
  /\ complete me' = complete me /\ lastDraw me' = lastDraw me
  /\ writeLimit me' = writeLimit me /\ debounceLimit me' = debounceLimit me
  /\ opsPerSec me' = opsPerSec me /\ report me' = report me
  /\ timeSamples me' = timeSamples me /\ sampleTimer me' = sampleTimer me
  /\ percent me'
     = VStr (toFixed0 (nmul (ndiv (ofZ (curr me)) (ofZ (total (cfg me)))) (ofZ 100)))
  /\ elapsedTime me' = timeDiff e (startTime (cfg me))
  /\ totalOpsPerSec me'
     = ndiv (floor (nmul (ndiv (ofZ (curr me)) (timeDiff e (startTime (cfg me)))) (ofZ 10)))
         (ofZ 10)
  /\ (doFormat e me' format).2 = (doFormat e me format).2.
Proof.
  cbv zeta.
  destruct (doFormat_fields e me format)
    as (H1 & H2 & H3 & H4 & H5 & H6 & H7 & H8 & H9 & H10 & H11 & H12 & H13 & H14 & H15).
  repeat (split; [assumption|]).
  by apply doFormat_string_ext.
Qed.

(** The clock is an input of formatting: the same object formats
    differently a minute later. *)
Example doFormat_reads_the_clock :
  let me := barAt (options (JNumber 10) None) 10 5 in
  (doFormat (mkEnv 0 80 false) me (lit ":elapsed")).2 = lit "0min 0sec"
  /\ (doFormat (mkEnv 61000000000 80 false) me (lit ":elapsed")).2 = lit "1min 1sec".
Proof. vm_compute. split; reflexivity. Qed.

End FormatFacts.

(* ===================================================================== *)
(** * Rendering *)
(* ===================================================================== *)

Module RenderFacts.
Import JS Model Spec Sample Notions StringFacts FormatFacts.

#[local] Opaque doFormat.

Lemma eraseDeb_set (d : option Z) (b : Bar) : eraseDeb (set_debounceLimit d b) = eraseDeb b.
Proof. reflexivity. Qed.

(** The [forEach] of [doRender] assigns [debounceLimit] and nothing else. *)
Lemma stack_heap (d : Z) (lines : gmap Id str) (ks : list Id)
    (acc : gmap Id Bar * str) (j : Id) :
  eraseDeb <$> (foldl (stackStep d lines) acc ks).1 !! j = eraseDeb <$> acc.1 !! j.
Proof.
  revert acc. induction ks as [|k ks IH]; intros acc; [done|].
  simpl. rewrite IH. unfold stackStep.
  destruct (acc.1 !! k) as [b|] eqn:Hb; [|done].
  destruct (lines !! k); [|done]. simpl.
  destruct (justMe (cfg b)); [|done].
  destruct (decide (k = j)) as [->|Hne].
  - by rewrite lookup_insert_eq, Hb.
  - by rewrite lookup_insert_ne.
Qed.

Lemma lookup_eraseDeb (h h' : gmap Id Bar) (j : Id) (b : Bar) :
  eraseDeb <$> h' !! j = eraseDeb <$> h !! j -> h !! j = Some b ->
  exists b', h' !! j = Some b' /\ eraseDeb b' = eraseDeb b.
Proof.
  intros H Hb. rewrite Hb in H. destruct (h' !! j) as [b'|]; [|done].
  exists b'. split; [done|]. apply (inj Some). exact H.
Qed.

(** What [draw] does with an object [fs.1] that has the [lastDraw] and
    [complete] of [me]. *)
Lemma draw_inv (i : Id) (d : Z) (fs : Bar * str) (w : World) (me : Bar) :
  lastDraw fs.1 = lastDraw me -> complete fs.1 = complete me ->
  let drawn := negb (bool_decide (lastDraw me = fs.2)) && negb (complete me) in
  let w' := draw i d fs w in
  exists (me' : Bar) (big : str),
    heap w' !! i = Some me'
    /\ eraseDeb me' = eraseDeb (if drawn then set_lastDraw fs.2 fs.1 else fs.1)
    /\ trace w' = trace w ++
                  (if drawn then [ClearLine i (Some 1); CursorTo i 0; Write i big] else [])
    /\ (forall j, j <> i -> eraseDeb <$> heap w' !! j = eraseDeb <$> heap w !! j)
    /\ barLines w' = <[i := fs.2]> (barLines w)
    /\ barInc w' = barInc w /\ bars w' = bars w
    /\ timeouts w' = timeouts w /\ nextHandle w' = nextHandle w
    /\ (justMe (cfg fs.1) = true -> big = fs.2).
Proof.
  intros Hfl Hfc. cbv zeta. unfold draw.
  set (w1 := set_barLines _ _).
  set (hb := if (1 <? length _)%nat then _ else _).
  assert (Hhb : forall j, eraseDeb <$> hb.1 !! j = eraseDeb <$> heap w1 !! j).
  { intros j. unfold hb. destruct (1 <? _)%nat; [|done]. by rewrite stack_heap. }
  assert (H1 : heap w1 !! i = Some fs.1) by apply lookup_insert_eq.
  destruct (lookup_eraseDeb _ _ _ _ (Hhb i) H1) as (me2 & Hme2 & Heq).
  rewrite Hme2.
  assert (Hld : lastDraw me2 = lastDraw me)
    by (rewrite <- Hfl; exact (f_equal lastDraw Heq)).
  assert (Hcp : complete me2 = complete me)
    by (rewrite <- Hfc; exact (f_equal complete Heq)).
  assert (Hjm : justMe (cfg fs.1) = true -> (if justMe (cfg me2) then fs.2 else hb.2) = fs.2).
  { intros Hj. replace (cfg me2) with (cfg fs.1) by (symmetry; exact (f_equal cfg Heq)).
    by rewrite Hj. }
  rewrite Hld, Hcp.
  assert (Hother : forall j, j <> i -> eraseDeb <$> hb.1 !! j = eraseDeb <$> heap w !! j).
  { intros j Hj. rewrite Hhb. unfold w1. cbn [heap set_barLines set_heap].
    by rewrite lookup_insert_ne. }
  destruct (negb (bool_decide (lastDraw me = fs.2)) && negb (complete me)).
  - exists (set_lastDraw fs.2 me2), (if justMe (cfg me2) then fs.2 else hb.2).
    cbn [heap update set_heap emit trace barLines barInc bars timeouts nextHandle].
    rewrite lookup_alter_eq, Hme2.
    repeat split; try done.
    + change (eraseDeb (set_lastDraw fs.2 me2)) with (set_lastDraw fs.2 (eraseDeb me2)).
      by rewrite Heq.
    + intros j Hj. rewrite lookup_alter_ne by done. by apply Hother.
  - exists me2, (if justMe (cfg me2) then fs.2 else hb.2).
    cbn [heap set_heap trace barLines barInc bars timeouts nextHandle].
    rewrite app_nil_r. repeat split; done.
Qed.

Lemma doRender_unfold (e : Env) (i : Id) (w : World) (me : Bar) :
  heap w !! i = Some me -> noRender (cfg me) = false ->
  doRender e i w
  = draw i (delay (cfg me)) (doFormat e me (title (cfg me) ++ lit " " ++ fmt (cfg me))) w.
Proof. intros Hme Hnr. unfold doRender. by rewrite Hme, Hnr. Qed.

Lemma frame_ext (e : Env) (a b : Bar) :
  cfg a = cfg b -> curr a = curr b -> opsPerSec a = opsPerSec b ->
  frame e a = frame e b.
Proof. intros Hc Hk Ho. unfold frame. rewrite Hc. by apply doFormat_string_ext. Qed.

Lemma eraseDeb_eq (a b : Bar) :
  eraseDeb a = eraseDeb b -> a = set_debounceLimit (debounceLimit a) b.
Proof.
  destruct a, b. unfold eraseDeb, set_debounceLimit. cbn. intros H.
  inversion H; subst. reflexivity.
Qed.

Lemma writes_app (t u : list event) : writes (t ++ u) = writes t ++ writes u.
Proof. apply omap_app. Qed.

(** The text accumulated by the [forEach] of [doRender]. *)
Lemma stack_text (d : Z) (lines : gmap Id str) (h0 : gmap Id Bar) (ks : list Id)
    (acc : gmap Id Bar * str) :
  (forall k : Id, cfg <$> acc.1 !! k = cfg <$> h0 !! k) ->
  (foldl (stackStep d lines) acc ks).2 = foldl (textStep h0 lines) acc.2 ks.
Proof.
  revert acc. induction ks as [|k ks IH]; intros acc Hinv; [done|].
  cbn [foldl]. rewrite IH.
  - f_equal. unfold stackStep, textStep. pose proof (Hinv k) as Hk.
    destruct (acc.1 !! k) as [b|], (h0 !! k) as [b0|]; try done.
    cbn in Hk. injection Hk as Hk. destruct (lines !! k); [|done]. cbn [snd].
    by rewrite Hk.
  - intros j. unfold stackStep.
    destruct (acc.1 !! k) as [b|] eqn:Hb; [|apply Hinv].
    destruct (lines !! k); [|apply Hinv]. cbn [fst].
    destruct (justMe (cfg b)); [|apply Hinv].
    destruct (decide (k = j)) as [->|Hne].
    + rewrite lookup_insert_eq. cbn. rewrite <- Hinv, Hb. done.
    + rewrite lookup_insert_ne by done. apply Hinv.
Qed.

(** What [draw] writes when it draws. *)
Lemma draw_written (i : Id) (d : Z) (fs : Bar * str) (w : World) (me : Bar) :
  heap w !! i = Some me -> cfg fs.1 = cfg me ->
  lastDraw fs.1 = lastDraw me -> complete fs.1 = complete me ->
  negb (bool_decide (lastDraw me = fs.2)) && negb (complete me) = true ->
  trace (draw i d fs w)
  = trace w ++ [ClearLine i (Some 1); CursorTo i 0; Write i (written w i me fs.2)].
Proof.
  intros Hme Hcfg Hfl Hfc Hdr. unfold draw.
  set (w1 := set_barLines _ _).
  set (ks := keys (barLines w1) (barInc w1)).
  set (hb := if (1 <? length ks)%nat then _ else _).
  assert (Hinv : forall k : Id, cfg <$> heap w1 !! k = cfg <$> heap w !! k).
  { intros k. unfold w1. cbn [heap set_barLines set_heap].
    destruct (decide (i = k)) as [->|Hne].
    - by rewrite lookup_insert_eq, Hme; cbn; rewrite Hcfg.
    - by rewrite lookup_insert_ne. }
  assert (Hhb : forall j, eraseDeb <$> hb.1 !! j = eraseDeb <$> heap w1 !! j).
  { intros j. unfold hb. destruct (1 <? _)%nat; [|done]. by rewrite stack_heap. }
  assert (H1 : heap w1 !! i = Some fs.1) by apply lookup_insert_eq.
  destruct (lookup_eraseDeb _ _ _ _ (Hhb i) H1) as (me2 & Hme2 & Heq).
  cbv zeta. rewrite Hme2.
  assert (Hld : lastDraw me2 = lastDraw me)
    by (rewrite <- Hfl; exact (f_equal lastDraw Heq)).
  assert (Hcp : complete me2 = complete me)
    by (rewrite <- Hfc; exact (f_equal complete Heq)).
  assert (Hc2 : cfg me2 = cfg me) by (rewrite <- Hcfg; exact (f_equal cfg Heq)).
  rewrite Hld, Hcp, Hdr, Hc2.
  cbn [trace update set_heap emit]. f_equal. do 2 f_equal. f_equal.
  unfold written. destruct (justMe (cfg me)); [done|].
  change (<[i:=fs.2]> (barLines w)) with (barLines w1).
  change (barInc w) with (barInc w1). fold ks.
  unfold hb. destruct (1 <? length ks)%nat; [|done].
  by rewrite (stack_text _ _ (heap w)).
Qed.

(** [doRender] on a bar that renders, in terms of the object [fs.1] and the
    frame [fs.2] that [doFormat] returns. *)
Lemma doRender_inv (e : Env) (i : Id) (w : World) (me : Bar) :
  heap w !! i = Some me -> noRender (cfg me) = false ->
  exists (fs : Bar * str) (me' : Bar) (big : str),
    fs.2 = frame e me
    /\ cfg fs.1 = cfg me /\ curr fs.1 = curr me /\ opsPerSec fs.1 = opsPerSec me
    /\ sample fs.1 = sample me /\ complete fs.1 = complete me
    /\ lastDraw fs.1 = lastDraw me /\ writeLimit fs.1 = writeLimit me
    /\ sampleTimer fs.1 = sampleTimer me /\ timeSamples fs.1 = timeSamples me
    /\ report fs.1 = report me /\ id fs.1 = id me
    /\ heap (doRender e i w) !! i = Some me'
    /\ me' = set_debounceLimit (debounceLimit me')
               (if negb (bool_decide (lastDraw me = fs.2)) && negb (complete me)
                then set_lastDraw fs.2 fs.1 else fs.1)
    /\ trace (doRender e i w)
       = trace w ++
         (if negb (bool_decide (lastDraw me = fs.2)) && negb (complete me)
          then [ClearLine i (Some 1); CursorTo i 0; Write i big] else [])
    /\ (forall j, j <> i ->
          eraseDeb <$> heap (doRender e i w) !! j = eraseDeb <$> heap w !! j)
    /\ barLines (doRender e i w) = <[i := fs.2]> (barLines w)
    /\ barInc (doRender e i w) = barInc w /\ bars (doRender e i w) = bars w
    /\ timeouts (doRender e i w) = timeouts w
    /\ nextHandle (doRender e i w) = nextHandle w
    /\ (justMe (cfg me) = true -> big = fs.2).
Proof.
  intros Hme Hnr. rewrite (doRender_unfold e i w me Hme Hnr).
  destruct (doFormat_fields e me (title (cfg me) ++ lit " " ++ fmt (cfg me)))
    as (Hid & Hcfg & Hcurr & Hsam & Hcp & Hld & Hwl & _ & Hops & Hrep & Hts & Hst & _).
  assert (Hfs : (doFormat e me (title (cfg me) ++ lit " " ++ fmt (cfg me))).2 = frame e me)
    by (unfold frame; reflexivity).
  revert Hid Hcfg Hcurr Hsam Hcp Hld Hwl Hops Hrep Hts Hst Hfs.
  generalize (doFormat e me (title (cfg me) ++ lit " " ++ fmt (cfg me))).
  intros fs Hid Hcfg Hcurr Hsam Hcp Hld Hwl Hops Hrep Hts Hst Hfs.
  destruct (draw_inv i (delay (cfg me)) fs w me Hld Hcp)
    as (me' & big & Hme' & Heq & Htr & Hoth & Hbl & Hbi & Hbs & Hto & Hnh & Hjm).
  exists fs, me', big. apply eraseDeb_eq in Heq. rewrite Hcfg in Hjm.
  repeat split; try done.
Qed.

(** What [doRender] writes when it draws. *)
Lemma doRender_written (e : Env) (i : Id) (w : World) (me : Bar) :
  heap w !! i = Some me -> noRender (cfg me) = false ->
  negb (bool_decide (lastDraw me = frame e me)) && negb (complete me) = true ->
  trace (doRender e i w)
  = trace w ++ [ClearLine i (Some 1); CursorTo i 0; Write i (written w i me (frame e me))].
Proof.
  intros Hme Hnr. rewrite (doRender_unfold e i w me Hme Hnr).
  destruct (doFormat_fields e me (title (cfg me) ++ lit " " ++ fmt (cfg me)))
    as (_ & Hcfg & _ & _ & Hcp & Hld & _).
  unfold frame. revert Hcfg Hcp Hld.
  generalize (doFormat e me (title (cfg me) ++ lit " " ++ fmt (cfg me))).
  intros fs Hcfg Hcp Hld Hdr. by apply draw_written.
Qed.

Lemma textStep_ext (h1 h2 : gmap Id Bar) (lines : gmap Id str) (ks : list Id) (acc : str) :
  (forall k : Id, cfg <$> h1 !! k = cfg <$> h2 !! k) ->
  foldl (textStep h1 lines) acc ks = foldl (textStep h2 lines) acc ks.
Proof.
  intros Hh. revert acc. induction ks as [|k ks IH]; intros acc; [done|].
  cbn [foldl]. rewrite IH. f_equal. unfold textStep. pose proof (Hh k) as Hk.
  destruct (h1 !! k) as [b1|], (h2 !! k) as [b2|]; try done.
  cbn in Hk. injection Hk as Hk. by rewrite Hk.
Qed.

(** The written string depends on the lines, the identifiers and the
    configurations only. *)
Lemma written_ext (w1 w2 : World) (i : Id) (me1 me2 : Bar) (fr : str) :
  barLines w1 = barLines w2 -> barInc w1 = barInc w2 ->
  (forall k : Id, cfg <$> heap w1 !! k = cfg <$> heap w2 !! k) ->
  cfg me1 = cfg me2 ->
  written w1 i me1 fr = written w2 i me2 fr.
Proof.
  intros Hl Hi Hh Hc. unfold written. rewrite Hl, Hi, Hc.
  by rewrite (textStep_ext (heap w1) (heap w2)).
Qed.

(** A call of [doRender] on a bar whose frame is the one last drawn, or
    which is complete, changes nothing on the terminal. *)
Lemma doRender_quiet (e : Env) (i : Id) (w : World) (me : Bar) :
  heap w !! i = Some me ->
  frame e me = lastDraw me \/ complete me = true ->
  trace (doRender e i w) = trace w.
Proof.
  intros Hme Hq. destruct (noRender (cfg me)) eqn:Hnr.
  { unfold doRender. by rewrite Hme, Hnr. }
  destruct (doRender_inv e i w me Hme Hnr)
    as (fs & me' & big & Hfs & _ & _ & _ & _ & _ & _ & _ & _ & _ & _ & _ & _ & _ & Htr & _).
  rewrite Htr. destruct Hq as [Hq|Hq].
  - rewrite bool_decide_eq_true_2 by congruence. simpl. apply app_nil_r.
  - rewrite Hq, andb_false_r. apply app_nil_r.
Qed.

(** After a call of [doRender] the bar is complete or its frame is the one
    last drawn, unless rendering is disabled. *)
Lemma doRender_settles (e : Env) (i : Id) (w : World) (me : Bar) :
  heap w !! i = Some me -> noRender (cfg me) = false ->
  exists me', heap (doRender e i w) !! i = Some me'
    /\ (frame e me' = lastDraw me' \/ complete me' = true).
Proof.
  intros Hme Hnr.
  destruct (doRender_inv e i w me Hme Hnr)
    as (fs & me' & big & Hfs & Hcfg & Hcurr & Hops & _ & Hcp & Hld & _ & _ & _ & _ & _
        & Hme' & Heq & _).
  exists me'. split; [done|].
  assert (Hf : frame e me' = fs.2).
  { rewrite Hfs. apply frame_ext; rewrite Heq;
      destruct (negb (bool_decide (lastDraw me = fs.2)) && negb (complete me)); done. }
  rewrite Hf, Heq.
  destruct (bool_decide (lastDraw me = fs.2)) eqn:Hd.
  - left. apply bool_decide_eq_true in Hd. cbn. congruence.
  - destruct (complete me) eqn:Hc.
    + right. cbn. congruence.
    + left. reflexivity.
Qed.

(** C6.  A render whose frame is textually the last-drawn frame performs no
    call on the terminal; hence of two consecutive renders with no state
    change between them the second one is silent, and both together write at
    most once. *)
Theorem doRender_suppresses_identical_frame (e : Env) (i : Id) (w : World) :
  (forall me, heap w !! i = Some me -> frame e me = lastDraw me ->
     trace (doRender e i w) = trace w)
  /\ trace (doRender e i (doRender e i w)) = trace (doRender e i w)
  /\ (length (writes (trace (doRender e i (doRender e i w))))
      <= S (length (writes (trace w))))%nat.
Proof.
  assert (H2 : trace (doRender e i (doRender e i w)) = trace (doRender e i w)).
  { destruct (heap w !! i) as [me|] eqn:Hme; [|unfold doRender; by rewrite !Hme].
    destruct (noRender (cfg me)) eqn:Hnr;
      [unfold doRender; by rewrite !Hme, !Hnr, !Hme, !Hnr|].
    destruct (doRender_settles e i w me Hme Hnr) as (me' & Hme' & Hq).
    by apply (doRender_quiet e i _ me'). }
  split; [|split; [done|]].
  - intros me Hme Hf. apply (doRender_quiet e i w me Hme). by left.
  - rewrite H2.
    destruct (heap w !! i) as [me|] eqn:Hme; [|unfold doRender; rewrite Hme; lia].
    destruct (noRender (cfg me)) eqn:Hnr; [unfold doRender; rewrite Hme, Hnr; lia|].
    destruct (doRender_inv e i w me Hme Hnr)
      as (fs & me' & big & _ & _ & _ & _ & _ & _ & _ & _ & _ & _ & _ & _ & _ & _ & Htr & _).
    rewrite Htr, writes_app, length_app.
    destruct (negb (bool_decide (lastDraw me = fs.2)) && negb (complete me)); simpl; lia.
Qed.

Lemma doRender_suppresses_identical_frame_witness :
  let o := plain 10 (lit "[:bar] :percent") 10 in
  let w := doRender env0 1%nat (ProgressBar env0 o initial).1 in
  let me := default (construct env0 1%nat o 10) (heap w !! 1%nat) in
  (heap w !! 1%nat = Some me /\ frame env0 me = lastDraw me)
  /\ trace (doRender env0 1%nat w) = trace w.
Proof.
  intros o w me.
  assert (Hme : heap w !! 1%nat = Some me) by (vm_compute; reflexivity).
  assert (Hf : frame env0 me = lastDraw me) by (vm_compute; reflexivity).
  split; [exact (conj Hme Hf)|].
  exact (proj1 (doRender_suppresses_identical_frame env0 1%nat w) me Hme Hf).
Defined.

End RenderFacts.

(* ===================================================================== *)
(** * Worlds *)
(* ===================================================================== *)

Module WorldFacts.
Import JS Model Spec Sample StringFacts FormatFacts RenderFacts.

#[local] Opaque doFormat.

Lemma later_refl (a : Bar) : later a a.
Proof. by repeat split. Qed.

Lemma later_trans (a b c : Bar) : later a b -> later b c -> later a c.
Proof.
  intros (? & ? & ? & ? & ?) (? & ? & ? & ? & ?).
  repeat split; [congruence | congruence | auto..].
Qed.

Lemma evolves_refl (w : World) : evolves w w.
Proof.
  split; [done|]. split; [done|].
  intros j. destruct (heap w !! j); constructor. apply later_refl.
Qed.

Lemma evolves_trans (w1 w2 w3 : World) : evolves w1 w2 -> evolves w2 w3 -> evolves w1 w3.
Proof.
  intros (Hi12 & Hb12 & H12) (Hi23 & Hb23 & H23).
  split; [congruence|]. split; [congruence|].
  intros j. specialize (H12 j). specialize (H23 j).
  destruct H12 as [a b Hab|]; inversion H23; subst; constructor.
  by apply (later_trans a b).
Qed.

Lemma evolves_lookup (w w' : World) (j : Id) (me : Bar) :
  evolves w w' -> heap w !! j = Some me ->
  exists me', heap w' !! j = Some me' /\ later me me'.
Proof.
  intros (_ & _ & H) Hme. specialize (H j). rewrite Hme in H. inversion H; subst. eauto.
Qed.

Lemma evolves_lookup_inv (w w' : World) (j : Id) (me' : Bar) :
  evolves w w' -> heap w' !! j = Some me' ->
  exists me, heap w !! j = Some me /\ later me me'.
Proof.
  intros (_ & _ & H) Hme. specialize (H j). rewrite Hme in H. inversion H; subst. eauto.
Qed.

Lemma lookup_update (i j : Id) (f : Bar -> Bar) (w : World) :
  heap (update i f w) !! j = if decide (i = j) then f <$> heap w !! j else heap w !! j.
Proof.
  unfold update. cbn [heap set_heap]. destruct (decide (i = j)) as [->|Hne].
  - apply lookup_alter_eq.
  - by apply lookup_alter_ne.
Qed.

Lemma lookup_update_eq (i : Id) (f : Bar -> Bar) (w : World) :
  heap (update i f w) !! i = f <$> heap w !! i.
Proof. rewrite lookup_update. by rewrite decide_True. Qed.

Lemma evolves_update (i : Id) (f : Bar -> Bar) (w0 w : World) :
  (forall b, later b (f b)) -> evolves w0 w -> evolves w0 (update i f w).
Proof.
  intros Hf H0. apply (evolves_trans _ w); [done|].
  split; [done|]. split; [done|].
  intros j. rewrite lookup_update. destruct (decide (i = j)) as [->|].
  - destruct (heap w !! j); constructor. apply Hf.
  - destruct (heap w !! j); constructor. apply later_refl.
Qed.

Lemma evolves_same_heap (w0 w w' : World) :
  barInc w' = barInc w -> bars w' = bars w -> heap w' = heap w ->
  evolves w0 w -> evolves w0 w'.
Proof.
  intros Hi Hb H H0. apply (evolves_trans _ w); [done|].
  split; [done|]. split; [done|].
  intros j. rewrite H. destruct (heap w !! j); constructor. apply later_refl.
Qed.

Lemma later_doFormat (e : Env) (f : Bar -> str) (b : Bar) : later b (doFormat e b (f b)).1.
Proof.
  destruct (doFormat_fields e b (f b))
    as (Hid & Hcfg & _ & _ & Hcp & _ & _ & _ & _ & _ & Hts & Hst & _).
  repeat split; congruence.
Qed.

Lemma window_length (ts : list Z) (x : Z) :
  (length ts <= sampleCountMax)%nat ->
  (length (if (sampleCountMax <? length (ts ++ [x]))%nat then tail (ts ++ [x]) else ts ++ [x])
   <= sampleCountMax)%nat.
Proof.
  intros Hlen. destruct (Nat.ltb_spec sampleCountMax (length (ts ++ [x]))) as [H|H]; [|done].
  destruct ts as [|y ts]; [simpl; lia|].
  rewrite <- app_comm_cons. cbn [tail]. rewrite length_app. cbn [length] in *. lia.
Qed.

Lemma later_sampler (b : Bar) : later b (sampler b).
Proof. repeat split; try done. apply window_length. Qed.

(** [doRender] assigns only [percent], [elapsedTime], [totalOpsPerSec],
    [lastDraw] and [debounceLimit], whatever the bar. *)
Lemma evolves_doRender (e : Env) (i : Id) (w0 w : World) :
  evolves w0 w -> evolves w0 (doRender e i w).
Proof.
  intros H0. apply (evolves_trans _ w); [done|]. clear H0 w0.
  destruct (heap w !! i) as [me|] eqn:Hme;
    [|unfold doRender; rewrite Hme; apply evolves_refl].
  destruct (noRender (cfg me)) eqn:Hnr;
    [unfold doRender; rewrite Hme, Hnr; apply evolves_refl|].
  destruct (doRender_inv e i w me Hme Hnr)
    as (fs & me' & big & _ & Hcfg & _ & _ & _ & Hcp & _ & _ & Hst & Hts & _ & Hid
        & Hme' & Heq & _ & Hoth & _ & Hbi & Hbs & _).
  split; [done|]. split; [done|].
  intros j. destruct (decide (j = i)) as [->|Hne].
  - rewrite Hme, Hme'. constructor. rewrite Heq.
    destruct (negb (bool_decide (lastDraw me = fs.2)) && negb (complete me));
      repeat split; cbn; congruence.
  - specialize (Hoth j Hne). destruct (heap w !! j) as [b|] eqn:Hb.
    + destruct (heap (doRender e i w) !! j) as [b'|]; [|done].
      assert (Hb' : eraseDeb b' = eraseDeb b) by (apply (inj Some); exact Hoth).
      constructor. apply eraseDeb_eq in Hb'. rewrite Hb'. by repeat split.
    + destruct (heap (doRender e i w) !! j); [done | constructor].
Qed.

Lemma evolves_emit (es : list event) (w0 w : World) :
  evolves w0 w -> evolves w0 (emit es w).
Proof. by apply evolves_same_heap. Qed.

Lemma evolves_terminate (i : Id) (w0 w : World) :
  evolves w0 w -> evolves w0 (terminate i w).
Proof.
  intros H. unfold terminate. destruct (heap w !! i) as [me|]; [|done].
  destruct (clear (cfg me)); by apply evolves_emit.
Qed.

Lemma evolves_logReport (i : Id) (w0 w : World) :
  evolves w0 w -> evolves w0 (logReport i w).
Proof.
  intros H. unfold logReport. destruct (heap w !! i) as [me|]; [|done].
  by apply evolves_emit.
Qed.

Lemma evolves_schedule (i : Id) (w0 w : World) :
  evolves w0 w -> evolves w0 (schedule i w).
Proof.
  intros H. unfold schedule. apply evolves_update; [by repeat split|].
  by apply (evolves_same_heap _ w).
Qed.

(** The chain of world transformers of a method body. *)
Ltac evolve :=
  repeat first
    [ assumption
    | apply evolves_refl
    | apply evolves_emit
    | apply evolves_terminate
    | apply evolves_logReport
    | apply evolves_schedule
    | apply evolves_doRender
    | apply evolves_update;
      [ intros ?; first [ apply later_sampler
                        | apply (later_doFormat _ (fun b => onTickFmt (cfg b)))
                        | by repeat split ] | ]
    | match goal with
      | |- evolves _ (if ?c then _ else _) => destruct c
      | |- evolves _ (match ?x with Some _ => _ | None => _ end) => destruct x
      end ].

Lemma evolves_render (e : Env) (i : Id) (w0 w : World) :
  evolves w0 w -> evolves w0 (render e i w).
Proof. intros H. unfold render. evolve. Qed.

Lemma evolves_setTick (e : Env) (i : Id) (v : Z) (w0 w : World) :
  evolves w0 w -> evolves w0 (setTick e i v w).
Proof.
  intros H. unfold setTick. destruct (heap w !! i); [|done].
  destruct (_ <? _); [evolve|]. apply evolves_render. evolve.
Qed.

Lemma evolves_tick (e : Env) (i : Id) (len : option Z) (w0 w : World) :
  evolves w0 w -> evolves w0 (tick e i len w).
Proof.
  intros H. unfold tick. destruct (heap w !! i); [|done]. cbv zeta.
  destruct (_ <? _); [evolve|]. apply evolves_render. evolve.
Qed.

Lemma evolves_samplerFires (i : Id) (w0 w : World) :
  evolves w0 w -> evolves w0 (samplerFires i w).
Proof. intros H. unfold samplerFires. evolve. Qed.

Lemma evolves_timeoutFires (e : Env) (h : Handle) (w0 w : World) :
  evolves w0 w -> evolves w0 (timeoutFires e h w).
Proof.
  intros H. unfold timeoutFires. destruct (armed h (timeouts w)); [|done].
  evolve.
Qed.

(** Construction adds the object [S (barInc w)] and touches no other. *)
Lemma ProgressBar_heap (e : Env) (o : Options) (w : World) (j : Id) :
  j <> S (barInc w) -> heap (ProgressBar e o w).1 !! j = heap w !! j.
Proof.
  intros Hj. unfold ProgressBar.
  destruct (o_total o), (hookIsFunction (o_onStart o)); try done;
    cbn; by rewrite lookup_insert_ne.
Qed.

Lemma ProgressBar_barInc (e : Env) (o : Options) (w : World) :
  barInc (ProgressBar e o w).1 = S (barInc w).
Proof. unfold ProgressBar. by destruct (o_total o), (hookIsFunction (o_onStart o)). Qed.

(** Every step but a construction lets the world evolve. *)
Lemma evolves_step (w : World) (ea : Env * action) :
  (forall o, ea.2 <> New o) -> evolves w (step w ea).
Proof.
  intros Hnew. unfold step. destruct ea as [e a]. cbn [fst snd] in *.
  destruct a.
  - by destruct (Hnew o).
  - apply evolves_tick, evolves_refl.
  - apply evolves_setTick, evolves_refl.
  - apply evolves_render, evolves_refl.
  - evolve.
  - unfold interrupt. evolve.
  - unfold clearLine. evolve.
  - evolve.
  - evolve.
  - apply evolves_samplerFires, evolves_refl.
  - apply evolves_timeoutFires, evolves_refl.
Qed.

End WorldFacts.

(* ===================================================================== *)
(** * The sampler *)
(* ===================================================================== *)

Module SamplerFacts.
Import JS Model Spec Sample StringFacts FormatFacts RenderFacts WorldFacts.

#[local] Opaque doFormat.

Lemma run_invariant (P : World -> Prop) (acts : list (Env * action)) (w : World) :
  (forall w ea, P w -> P (step w ea)) -> P w -> P (run acts w).
Proof.
  intros Hstep. revert w. induction acts as [|ea acts IH]; intros w Hw; [done|].
  apply IH. by apply Hstep.
Qed.

Lemma ProgressBar_new (e : Env) (o : Options) (w : World) :
  heap (ProgressBar e o w).1 !! S (barInc w)
  = match o_total o with
    | JNumber t => Some (construct e (S (barInc w)) o t)
    | _ => heap w !! S (barInc w)
    end.
Proof.
  unfold ProgressBar.
  destruct (o_total o), (hookIsFunction (o_onStart o)); try done;
    cbn; apply lookup_insert_eq.
Qed.











End SamplerFacts.

(* ===================================================================== *)
(** * Ticking *)
(* ===================================================================== *)

Module TickFacts.
Import JS Model Spec Sample Notions StringFacts FormatFacts RenderFacts WorldFacts SamplerFacts.

#[local] Opaque doFormat.

Lemma core_ext (a b : Bar) :
  id a = id b -> cfg a = cfg b -> curr a = curr b -> sample a = sample b ->
  complete a = complete b -> opsPerSec a = opsPerSec b -> report a = report b ->
  timeSamples a = timeSamples b -> sampleTimer a = sampleTimer b ->
  core a = core b.
Proof. destruct a, b. cbn. by intros -> -> -> -> -> -> -> -> ->. Qed.

Lemma core_fields (a b : Bar) :
  core a = core b ->
  id a = id b /\ cfg a = cfg b /\ curr a = curr b /\ sample a = sample b
  /\ complete a = complete b /\ opsPerSec a = opsPerSec b /\ report a = report b
  /\ timeSamples a = timeSamples b /\ sampleTimer a = sampleTimer b.
Proof.
  intros H.
  repeat split;
    [ exact (f_equal id H) | exact (f_equal cfg H) | exact (f_equal curr H)
    | exact (f_equal sample H) | exact (f_equal complete H) | exact (f_equal opsPerSec H)
    | exact (f_equal report H) | exact (f_equal timeSamples H)
    | exact (f_equal sampleTimer H) ].
Qed.

Lemma core_doFormat (e : Env) (b : Bar) (f : str) : core (doFormat e b f).1 = core b.
Proof.
  destruct (doFormat_fields e b f)
    as (? & ? & ? & ? & ? & _ & _ & _ & ? & ? & ? & ? & _).
  by apply core_ext.
Qed.

(** [doRender] leaves the core of every object as it is. *)
Lemma doRender_core (e : Env) (i j : Id) (w : World) (b : Bar) :
  heap w !! j = Some b ->
  exists b', heap (doRender e i w) !! j = Some b' /\ core b' = core b
    /\ writeLimit b' = writeLimit b.
Proof.
  intros Hb.
  destruct (heap w !! i) as [me|] eqn:Hme;
    [|unfold doRender; rewrite Hme; eauto].
  destruct (noRender (cfg me)) eqn:Hnr;
    [unfold doRender; rewrite Hme, Hnr; eauto|].
  destruct (doRender_inv e i w me Hme Hnr)
    as (fs & me' & big & _ & Hcfg & Hcurr & Hops & Hsam & Hcp & _ & Hwl & Hst & Hts & Hrep
        & Hid & Hme' & Heq & _ & Hoth & _).
  destruct (decide (j = i)) as [->|Hne].
  - exists me'. split; [done|]. assert (b = me) as -> by congruence.
    rewrite Heq.
    destruct (negb (bool_decide (lastDraw me = fs.2)) && negb (complete me));
      (split; [by apply core_ext | done]).
  - specialize (Hoth j Hne). rewrite Hb in Hoth.
    destruct (heap (doRender e i w) !! j) as [b'|]; [|done].
    assert (Hb' : eraseDeb b' = eraseDeb b) by (apply (inj Some); exact Hoth).
    exists b'. split; [done|]. apply eraseDeb_eq in Hb'. rewrite Hb'. done.
Qed.



Lemma doRender_timeouts (e : Env) (i : Id) (w : World) :
  timeouts (doRender e i w) = timeouts w.
Proof.
  destruct (heap w !! i) as [me|] eqn:Hme; [|unfold doRender; by rewrite Hme].
  destruct (noRender (cfg me)) eqn:Hnr; [unfold doRender; by rewrite Hme, Hnr|].
  by destruct (doRender_inv e i w me Hme Hnr)
    as (fs & me' & big & _ & _ & _ & _ & _ & _ & _ & _ & _ & _ & _ & _ & _ & _ & _ & _ & _
        & _ & _ & Hto & _).
Qed.

(** [render] away from the total: the frame is drawn, or a draw is
    scheduled, or the request is dropped. *)
Lemma render_running (e : Env) (i : Id) (w : World) (me : Bar) :
  heap w !! i = Some me -> curr me <> total (cfg me) ->
  render e i w
  = if noDebounce (debounceLimit me) then doRender e i w
    else match writeLimit me with
         | Some _ => w
         | None => schedule i w
         end.
Proof.
  intros Hme Hne. unfold render. rewrite Hme.
  by replace (curr me =? total (cfg me)) with false by (symmetry; by apply Z.eqb_neq).
Qed.

(** [render] at the total: the completion path. *)
Lemma render_completing (e : Env) (i : Id) (w : World) (me : Bar) :
  heap w !! i = Some me -> curr me = total (cfg me) ->
  render e i w
  = let w1 := update i buildReport (doRender e i (update i (set_sampleTimer false) w)) in
    if onComplete (cfg me) then
      let w2 := update i (set_complete true) (emit [OnComplete i] (terminate i w1)) in
      if logResult (cfg me) then logReport i w2 else w2
    else w1.
Proof.
  intros Hme Heq. unfold render. rewrite Hme.
  by replace (curr me =? total (cfg me)) with true by (symmetry; by apply Z.eqb_eq).
Qed.

Lemma render_running_core (e : Env) (i : Id) (w : World) (me : Bar) :
  heap w !! i = Some me -> curr me <> total (cfg me) ->
  exists me', heap (render e i w) !! i = Some me' /\ core me' = core me.
Proof.
  intros Hme Hne. rewrite (render_running e i w me Hme Hne).
  destruct (noDebounce (debounceLimit me)).
  - destruct (doRender_core e i i w me Hme) as (b' & ? & ? & _). eauto.
  - destruct (writeLimit me); [eauto|].
    unfold schedule. rewrite lookup_update_eq. cbn. rewrite Hme. eauto.
Qed.

(** The state of the object when [tick] reaches [render]. *)
Lemma tick_unfold (e : Env) (i : Id) (len : option Z) (w : World) (me : Bar) :
  heap w !! i = Some me -> curr me + lenOf len <= total (cfg me) ->
  exists (w3 : World) (me3 : Bar),
    tick e i len w = render e i w3
    /\ heap w3 !! i = Some me3
    /\ core me3 = core (set_curr (curr me + lenOf len) (set_sample (sample me + lenOf len) me))
    /\ writeLimit me3 = writeLimit me /\ debounceLimit me3 = debounceLimit me
    /\ (exists es, trace w3 = trace w ++ es /\ forall j, completions j es = 0%nat)
    /\ timeouts w3 = timeouts w /\ barInc w3 = barInc w.
Proof.
  intros Hme Hle. unfold tick. rewrite Hme.
  replace (total (cfg me) <? curr me + lenOf len) with false
    by (symmetry; apply Z.ltb_ge; lia).
  set (w1 := update i (set_curr _) (update i (set_sample _) w)).
  set (me1 := set_curr (curr me + lenOf len) (set_sample (sample me + lenOf len) me)).
  assert (H1 : heap w1 !! i = Some me1).
  { unfold w1. rewrite !lookup_update_eq, Hme. done. }
  destruct (onTick (cfg me)).
  - rewrite H1. eexists _, _. split; [reflexivity|].
    split. { cbn [heap emit]. rewrite lookup_update_eq, H1. reflexivity. }
    destruct (doFormat_fields e me1 (onTickFmt (cfg me1)))
      as (_ & _ & _ & _ & _ & _ & Hwl & Hdl & _).
    split; [apply core_doFormat|]. split; [exact Hwl|]. split; [exact Hdl|].
    split; [|done]. eexists. split; [cbn; by rewrite <- app_assoc|]. done.
  - eexists _, _. split; [reflexivity|].
    split; [exact H1|]. split; [done|]. split; [done|]. split; [done|].
    split; [|done]. eexists. split; [reflexivity|]. done.
Qed.

(** A tick that stays below the total. *)
Lemma tick_below (e : Env) (i : Id) (len : option Z) (w : World) (me : Bar) :
  heap w !! i = Some me -> curr me + lenOf len < total (cfg me) ->
  exists me', heap (tick e i len w) !! i = Some me'
    /\ core me' = core (set_curr (curr me + lenOf len) (set_sample (sample me + lenOf len) me)).
Proof.
  intros Hme Hlt.
  destruct (tick_unfold e i len w me Hme) as (w3 & me3 & -> & H3 & Hc & _); [lia|].
  destruct (render_running_core e i w3 me3 H3) as (me' & Hme' & Hc').
  { apply core_fields in Hc as (_ & Hcfg & Hcurr & _). rewrite Hcfg, Hcurr. cbn. lia. }
  exists me'. split; [done|]. congruence.
Qed.

Lemma sumLen_nonneg (l : list (Env * option Z)) :
  Forall (fun x => 0 <= lenOf x.2) l -> 0 <= sumLen l.
Proof.
  induction 1 as [|x l Hx Hl IH]; [done|].
  change (sumLen (x :: l)) with (lenOf x.2 + sumLen l). lia.
Qed.

Lemma ticks_below_from (i : Id) (l : list (Env * option Z)) (w : World) (me : Bar) :
  heap w !! i = Some me ->
  Forall (fun x => 0 <= lenOf x.2) l ->
  curr me + sumLen l < total (cfg me) ->
  exists me', heap (ticks i l w) !! i = Some me'
    /\ core me' = core (set_curr (curr me + sumLen l) (set_sample (sample me + sumLen l) me)).
Proof.
  revert w me. induction l as [|x l IH]; intros w me Hme Hl Hlt.
  - exists me. split; [done|]. apply core_ext; cbn; first [done | lia].
  - inversion Hl as [|? ? Hx Hl']; subst. pose proof (sumLen_nonneg l Hl') as Hs.
    change (sumLen (x :: l)) with (lenOf x.2 + sumLen l) in *.
    destruct (tick_below x.1 i x.2 w me Hme) as (me1 & Hme1 & Hc1); [lia|].
    apply core_fields in Hc1 as (? & Hcfg & Hcurr & Hsam & ? & ? & ? & ? & ?).
    cbn in Hcfg, Hcurr, Hsam.
    destruct (IH (tick x.1 i x.2 w) me1 Hme1 Hl') as (me' & Hme' & Hc').
    { rewrite Hcfg, Hcurr. lia. }
    exists me'. split; [exact Hme'|]. rewrite Hc'.
    apply core_ext; cbn; first [done | lia].
Qed.

Lemma sums_between (c t : Z) (l : list (Env * option Z)) :
  0 <= c -> Forall (fun x => 0 <= lenOf x.2) l -> c + sumLen l < t ->
  Forall (fun z => 0 <= z < t) (sums c l).
Proof.
  intros Hc Hl. revert c Hc. induction Hl as [|x l Hx Hl IH]; intros c Hc Hlt; [constructor|].
  change (sumLen (x :: l)) with (lenOf x.2 + sumLen l) in Hlt.
  pose proof (sumLen_nonneg l Hl). cbn [sums]. constructor; [lia|].
  apply IH; lia.
Qed.

(** C3 as stated fails: the deltas 11 and -5 sum to 6, below the total 10,
    but the first tick overshoots and sets the [complete] flag, which no later
    tick clears. *)
Lemma overshoot_then_negative_delta :
  let o := options (JNumber 10) None in
  let l := [ (env0, Some 11); (env0, Some (-5)) ] in
  sumLen l < 10
  /\ (curr <$> heap (ticks 1%nat l (ProgressBar env0 o initial).1) !! 1%nat) = Some 6
  /\ (complete <$> heap (ticks 1%nat l (ProgressBar env0 o initial).1) !! 1%nat) = Some true.
Proof. vm_compute. repeat split; reflexivity. Qed.

(** C3 (amended).  A freshly constructed bar, with a total of at most [2^53],
    that receives tick calls with non-negative integer deltas whose sum [S]
    is below the total is still Running (not complete, sampler armed) and its
    [curr] is [S]; a tick without argument counts for 1.  (Every value [curr]
    takes on the way lies between 0 and the total, where the additions of the
    source are exact.) *)
Theorem ticks_below_total (e : Env) (o : Options) (w0 : World) (t : Z)
    (l : list (Env * option Z)) :
  o_total o = JNumber t -> hookIsFunction (o_onStart o) = true ->
  t <= 2 ^ 53 ->
  Forall (fun x => 0 <= lenOf x.2) l ->
  sumLen l < t ->
  (ProgressBar e o w0).2 = inr (S (barInc w0))
  /\ exists me,
      heap (ticks (S (barInc w0)) l (ProgressBar e o w0).1) !! S (barInc w0) = Some me
      /\ Running me /\ curr me = sumLen l /\ sample me = sumLen l
      /\ Forall (fun c => 0 <= c < t) (sums 0 l).
Proof.
  intros Ho Hs _ Hl Hlt.
  split; [unfold ProgressBar; by rewrite Ho, Hs|].
  pose proof (ProgressBar_new e o w0) as Hnew. rewrite Ho in Hnew.
  destruct (ticks_below_from _ l _ _ Hnew Hl) as (me & Hme & Hc); [cbn; lia|].
  exists me. split; [exact Hme|].
  apply core_fields in Hc as (_ & _ & Hcurr & Hsam & Hcp & _ & _ & _ & Hst).
  cbn in Hcurr, Hsam, Hcp, Hst. repeat split; try done.
  apply sums_between; first [done | lia].
Qed.

Lemma ticks_below_total_witness :
  let o := options (JNumber 10) None in
  let l := [ (env0, None); (env0, Some 2) ] in
  (o_total o = JNumber 10 /\ hookIsFunction (o_onStart o) = true /\ 10 <= 2 ^ 53
   /\ Forall (fun x => 0 <= lenOf x.2) l /\ sumLen l < 10)
  /\ exists me, heap (ticks 1%nat l (ProgressBar env0 o initial).1) !! 1%nat = Some me
       /\ Running me /\ curr me = 3.
Proof.
  intros o l.
  assert (Ho : o_total o = JNumber 10) by reflexivity.
  assert (Hf : hookIsFunction (o_onStart o) = true) by reflexivity.
  assert (Hb : 10 <= 2 ^ 53) by (vm_compute; discriminate).
  assert (Hl : Forall (fun x => 0 <= lenOf x.2) l) by (repeat constructor; cbn; lia).
  assert (Hs : sumLen l < 10) by (cbn; lia).
  split; [exact (conj Ho (conj Hf (conj Hb (conj Hl Hs))))|].
  destruct (ticks_below_total env0 o initial 10 l Ho Hf Hb Hl Hs) as (_ & me & Hme & Hr & Hc & _).
  exists me. exact (conj Hme (conj Hr Hc)).
Defined.

(** ** Completion *)

Lemma heap_terminate (i : Id) (w : World) : heap (terminate i w) = heap w.
Proof. unfold terminate. destruct (heap w !! i) as [me|]; [|done]. by destruct (clear (cfg me)). Qed.


Lemma heap_logReport (i : Id) (w : World) : heap (logReport i w) = heap w.
Proof. unfold logReport. by destruct (heap w !! i). Qed.



(** A tick that leaves [curr] beyond [total] only sets fields. *)
Lemma tick_beyond (e : Env) (i : Id) (len : option Z) (w : World) (me : Bar) :
  heap w !! i = Some me -> total (cfg me) < curr me + lenOf len ->
  tick e i len w
  = update i (set_complete true)
      (update i (set_curr (curr me + lenOf len))
         (update i (set_sample (sample me + lenOf len)) w)).
Proof.
  intros Hme Hlt. unfold tick. rewrite Hme.
  by replace (total (cfg me) <? curr me + lenOf len) with true
    by (symmetry; apply Z.ltb_lt; lia).
Qed.

Lemma step_barInc (w : World) (ea : Env * action) : (barInc w <= barInc (step w ea))%nat.
Proof.
  assert (Hcases : (exists o, ea.2 = New o) \/ (forall o, ea.2 <> New o)).
  { destruct ea as [e []]; cbn; eauto; right; intros; discriminate. }
  destruct Hcases as [[o Ho]|Hno].
  - destruct ea as [e a]. cbn in Ho. subst a. cbn [step fst snd].
    rewrite ProgressBar_barInc. lia.
  - destruct (evolves_step w ea Hno) as (-> & _). lia.
Qed.

(** An object of the world stays in it, in a later state. *)
Lemma step_later (w : World) (ea : Env * action) (i : Id) (me : Bar) :
  heap w !! i = Some me -> (i <= barInc w)%nat ->
  exists me', heap (step w ea) !! i = Some me' /\ later me me'.
Proof.
  intros Hme Hi.
  assert (Hcases : (exists o, ea.2 = New o) \/ (forall o, ea.2 <> New o)).
  { destruct ea as [e []]; cbn; eauto; right; intros; discriminate. }
  destruct Hcases as [[o Ho]|Hno].
  - destruct ea as [e a]. cbn in Ho. subst a. cbn [step fst snd].
    rewrite ProgressBar_heap by lia. exists me. split; [done | apply later_refl].
  - apply (evolves_lookup w); [by apply evolves_step | done].
Qed.

Lemma run_later (acts : list (Env * action)) (w : World) (i : Id) (me : Bar) :
  heap w !! i = Some me -> (i <= barInc w)%nat ->
  exists me', heap (run acts w) !! i = Some me' /\ later me me'.
Proof.
  revert w me. induction acts as [|ea acts IH]; intros w me Hme Hi.
  - exists me. split; [done | apply later_refl].
  - destruct (step_later w ea i me Hme Hi) as (me1 & Hme1 & Hl1).
    destruct (IH (step w ea) me1 Hme1) as (me' & Hme' & Hl').
    { pose proof (step_barInc w ea). lia. }
    exists me'. split; [exact Hme'|]. by apply (later_trans me me1).
Qed.


(** A first tick beyond the total sets the flag and returns: no frame, no
    report, no hook, and the sampler stays armed. *)
Example overshoot_skips_completion :
  let w := run [ (env0, New (options (JNumber 10) None)); (env0, Tick 1%nat (Some 11)) ]
             initial in
  (complete <$> heap w !! 1%nat) = Some true
  /\ (sampleTimer <$> heap w !! 1%nat) = Some true
  /\ (report <$> heap w !! 1%nat) = Some None
  /\ trace w = [OnStart 1%nat].
Proof. vm_compute. repeat split; reflexivity. Qed.




(** What one call of [doRender] does to its bar and to the terminal. *)
Lemma doRender_outcome (e : Env) (i : Id) (w : World) (me : Bar) :
  heap w !! i = Some me ->
  let fr := frame e me in
  let drawn := negb (bool_decide (lastDraw me = fr)) && negb (complete me)
               && negb (noRender (cfg me)) in
  exists (b : Bar),
    heap (doRender e i w) !! i = Some b
    /\ core b = core me /\ writeLimit b = writeLimit me
    /\ lastDraw b = (if drawn then fr else lastDraw me)
    /\ trace (doRender e i w)
       = trace w ++ (if drawn
                     then [ClearLine i (Some 1); CursorTo i 0; Write i (written w i me fr)]
                     else [])
    /\ timeouts (doRender e i w) = timeouts w.
Proof.
  intros Hme. cbv zeta. destruct (noRender (cfg me)) eqn:Hnr.
  - assert (Hd : doRender e i w = w) by (unfold doRender; by rewrite Hme, Hnr).
    cbn [negb]. rewrite Hd, andb_false_r. exists me.
    rewrite app_nil_r. by repeat split.
  - cbn [negb]. rewrite andb_true_r.
    destruct (doRender_inv e i w me Hme Hnr)
      as (fs & me' & big & Hfs & _ & _ & _ & _ & _ & Hld & Hwl & _ & _ & _ & _ & Hme' & Heq
          & Htr & _ & _ & _ & _ & Hto & _ & Hjm).
    rewrite Hfs in Heq, Htr, Hjm.
    destruct (doRender_core e i i w me Hme) as (b & Hb & Hcb & Hwb).
    assert (b = me') as -> by congruence.
    exists me'. split; [exact Hme'|]. split; [exact Hcb|]. split; [exact Hwb|].
    split; [|split; [|exact Hto]].
    + rewrite Heq.
      destruct (negb (bool_decide (lastDraw me = frame e me)) && negb (complete me));
        [reflexivity | exact Hld].
    + destruct (negb (bool_decide (lastDraw me = frame e me)) && negb (complete me)) eqn:Hdr.
      * by apply doRender_written.
      * exact Htr.
Qed.




(** ** Construction *)

(** C2 as stated fails: [0] is a number, so a bar with [total = 0] is
    constructed; and a rejected construction has already taken an identifier. *)
Lemma zero_total_is_accepted :
  (ProgressBar env0 (options (JNumber 0) None) initial).2 = inr 1%nat
  /\ (total <$> (cfg <$> heap (ProgressBar env0 (options (JNumber 0) None) initial).1 !! 1%nat))
     = Some 0
  /\ barInc (ProgressBar env0 (options JUndefined None) initial).1 = 1%nat.
Proof. vm_compute. repeat split; reflexivity. Qed.

(** A construction with a numeric total and an [onStart] that is not a
    function throws at the last statement: the object is built and its
    sampler is armed. *)
Example onStart_must_be_callable :
  let o := mkOptions (JNumber 10) None None None None None None HAbsent HAbsent None
             false false false None None HOther in
  (ProgressBar env0 o initial).2 = inl (lit "me.onStart.call is not a function")
  /\ (sampleTimer <$> heap (ProgressBar env0 o initial).1 !! 1%nat) = Some true
  /\ trace (ProgressBar env0 o initial).1 = [].
Proof. vm_compute. repeat split; reflexivity. Qed.

(** C2 (amended).  Construction takes the next identifier in every case and
    fails in two ways.  When [total] is not of type number (a number, 0
    included, is accepted) it fails with ["total required"] before anything
    is initialised: no object, no timer, no hook, nothing written.  When
    [total] is a number and [onStart] is given and is not a function, the
    unguarded call of [onStart] at the end of the constructor fails: no hook
    has run and nothing is written, but the object is fully built, with
    [curr = 0], the given total and its sampler armed.  Otherwise the result
    is a Running bar with [curr = 0] and the given total, and the start hook
    has run once. *)
Theorem construction_checks_type (e : Env) (o : Options) (w : World) :
  barInc (ProgressBar e o w).1 = S (barInc w)
  /\ (isNumber (o_total o) = false ->
      (ProgressBar e o w).2 = inl (lit "total required")
      /\ heap (ProgressBar e o w).1 = heap w
      /\ timeouts (ProgressBar e o w).1 = timeouts w
      /\ barLines (ProgressBar e o w).1 = barLines w
      /\ trace (ProgressBar e o w).1 = trace w)
  /\ (forall t, o_total o = JNumber t -> hookIsFunction (o_onStart o) = false ->
      (ProgressBar e o w).2 = inl (lit "me.onStart.call is not a function")
      /\ timeouts (ProgressBar e o w).1 = timeouts w
      /\ barLines (ProgressBar e o w).1 = barLines w
      /\ trace (ProgressBar e o w).1 = trace w
      /\ (forall j : Id, j <> S (barInc w) -> heap (ProgressBar e o w).1 !! j = heap w !! j)
      /\ exists me, heap (ProgressBar e o w).1 !! S (barInc w) = Some me
           /\ total (cfg me) = t /\ curr me = 0 /\ Running me)
  /\ (forall t, o_total o = JNumber t -> hookIsFunction (o_onStart o) = true ->
      (ProgressBar e o w).2 = inr (S (barInc w))
      /\ timeouts (ProgressBar e o w).1 = timeouts w
      /\ barLines (ProgressBar e o w).1 = barLines w
      /\ trace (ProgressBar e o w).1 = trace w ++ [OnStart (S (barInc w))]
      /\ (forall j : Id, j <> S (barInc w) -> heap (ProgressBar e o w).1 !! j = heap w !! j)
      /\ exists me, heap (ProgressBar e o w).1 !! S (barInc w) = Some me
           /\ total (cfg me) = t /\ curr me = 0 /\ Running me).
Proof.
  split; [apply ProgressBar_barInc|]. split; [|split].
  - intros Hn. unfold ProgressBar. by destruct (o_total o).
  - intros t Ht Hs.
    split; [unfold ProgressBar; by rewrite Ht, Hs|].
    split; [unfold ProgressBar; by rewrite Ht, Hs|].
    split; [unfold ProgressBar; by rewrite Ht, Hs|].
    split; [unfold ProgressBar; by rewrite Ht, Hs|].
    split; [intros j Hj; by apply ProgressBar_heap|].
    rewrite ProgressBar_new, Ht. eexists. split; [reflexivity|]. by repeat split.
  - intros t Ht Hs.
    split; [unfold ProgressBar; by rewrite Ht, Hs|].
    split; [unfold ProgressBar; by rewrite Ht, Hs|].
    split; [unfold ProgressBar; by rewrite Ht, Hs|].
    split; [unfold ProgressBar; by rewrite Ht, Hs|].
    split; [intros j Hj; by apply ProgressBar_heap|].
    rewrite ProgressBar_new, Ht. eexists. split; [reflexivity|]. by repeat split.
Qed.

Lemma construction_checks_type_witness :
  let o := options (JString (lit "10")) None in
  isNumber (o_total o) = false
  /\ (ProgressBar env0 o initial).2 = inl (lit "total required")
  /\ heap (ProgressBar env0 o initial).1 = heap initial.
Proof.
  intros o.
  assert (Hn : isNumber (o_total o) = false) by reflexivity.
  split; [exact Hn|].
  destruct (proj1 (proj2 (construction_checks_type env0 o initial)) Hn) as (He & Hh & _).
  exact (conj He Hh).
Defined.

End TickFacts.

(* ===================================================================== *)
(** * Debouncing *)
(* ===================================================================== *)

Module TimerFacts.
Import JS Model Spec Sample StringFacts FormatFacts RenderFacts WorldFacts SamplerFacts
  TickFacts.

#[local] Opaque doFormat.

Lemma sameTimers_refl (w : World) : sameTimers w w.
Proof. by repeat split. Qed.

Lemma sameTimers_trans (w1 w2 w3 : World) :
  sameTimers w1 w2 -> sameTimers w2 w3 -> sameTimers w1 w3.
Proof.
  intros (? & ? & H12) (? & ? & H23). repeat split; [congruence..|].
  intros j. by rewrite H23, H12.
Qed.

Lemma sameTimers_update (i : Id) (f : Bar -> Bar) (w0 w : World) :
  (forall b, writeLimit (f b) = writeLimit b) ->
  sameTimers w0 w -> sameTimers w0 (update i f w).
Proof.
  intros Hf H0. apply (sameTimers_trans _ w); [done|].
  repeat split; try done. intros j. rewrite lookup_update.
  destruct (decide (i = j)) as [->|]; [|done].
  destruct (heap w !! j); cbn; [|done]. by rewrite Hf.
Qed.

Lemma sameTimers_emit (es : list event) (w0 w : World) :
  sameTimers w0 w -> sameTimers w0 (emit es w).
Proof. done. Qed.

Lemma sameTimers_terminate (i : Id) (w0 w : World) :
  sameTimers w0 w -> sameTimers w0 (terminate i w).
Proof.
  intros H. unfold terminate. destruct (heap w !! i) as [me|]; [|done].
  by destruct (clear (cfg me)).
Qed.

Lemma sameTimers_logReport (i : Id) (w0 w : World) :
  sameTimers w0 w -> sameTimers w0 (logReport i w).
Proof. intros H. unfold logReport. by destruct (heap w !! i). Qed.

Lemma sameTimers_doRender (e : Env) (i : Id) (w0 w : World) :
  sameTimers w0 w -> sameTimers w0 (doRender e i w).
Proof.
  intros H0. apply (sameTimers_trans _ w); [done|]. clear H0 w0.
  split; [apply doRender_timeouts|].
  destruct (evolves_doRender e i w w (evolves_refl w)) as (Hbi & _ & Hev).
  split; [done|]. intros j. specialize (Hev j).
  destruct (heap w !! j) as [b|] eqn:Hb.
  - destruct (doRender_core e i j w b Hb) as (b' & -> & _ & Hwl). cbn. by rewrite Hwl.
  - by inversion Hev.
Qed.

Ltac timers :=
  repeat first
    [ assumption
    | apply sameTimers_refl
    | apply sameTimers_emit
    | apply sameTimers_terminate
    | apply sameTimers_logReport
    | apply sameTimers_doRender
    | apply sameTimers_update;
      [ intros ?; first [ reflexivity
                        | by destruct (doFormat_fields _ _ (onTickFmt (cfg _)))
                            as (_ & _ & _ & _ & _ & _ & ? & _) ] | ]
    | match goal with
      | |- sameTimers _ (if ?c then _ else _) => destruct c
      | |- sameTimers _ (match ?x with Some _ => _ | None => _ end) => destruct x
      end ].

Lemma timersOk_same (w w' : World) : sameTimers w w' -> timersOk w -> timersOk w'.
Proof.
  intros (Hto & Hbi & Hwl) (Hnd & Hp & Hh & Hn).
  unfold timersOk, pending in *. rewrite Hto, Hbi.
  split; [done|]. split; [done|]. split.
  - intros j [b Hb]. apply Hh. specialize (Hwl j). rewrite Hb in Hwl.
    destruct (heap w !! j); [eauto | done].
  - intros j b Hb Hnone. specialize (Hwl j). rewrite Hb in Hwl.
    destruct (heap w !! j) as [b0|] eqn:Hb0; [|done].
    apply (Hn j b0 Hb0). cbn in Hwl. congruence.
Qed.

Lemma timersOk_schedule (i : Id) (w : World) (me : Bar) :
  heap w !! i = Some me -> writeLimit me = None -> timersOk w -> timersOk (schedule i w).
Proof.
  intros Hme Hnone (Hnd & Hp & Hh & Hn).
  unfold timersOk, pending, schedule in *.
  cbn [timeouts barInc heap update set_heap set_nextHandle set_timeouts].
  rewrite fmap_app. cbn [fmap list_fmap snd].
  assert (Hi : i ∉ (timeouts w).*2) by (by apply (Hn i me)).
  split; [|split; [|split]].
  - apply NoDup_app. split; [done|]. split; [|apply NoDup_singleton].
    intros j Hj ->%list_elem_of_singleton. done.
  - intros j [Hj| ->%list_elem_of_singleton]%elem_of_app; [by apply Hp|].
    apply Hh. by rewrite Hme.
  - intros j [b Hb]. apply Hh.
    destruct (decide (i = j)) as [->|Hne]; [by rewrite Hme|].
    rewrite lookup_alter_ne in Hb by done. eauto.
  - intros j b Hb Hwl.
    destruct (decide (i = j)) as [->|Hne].
    + rewrite lookup_alter_eq, Hme in Hb. by injection Hb as <-.
    + rewrite lookup_alter_ne in Hb by done.
      intros [Hj| ->%list_elem_of_singleton]%elem_of_app; [|done].
      by apply (Hn j b Hb Hwl).
Qed.

Lemma timersOk_render (e : Env) (i : Id) (w : World) :
  timersOk w -> timersOk (render e i w).
Proof.
  intros Hok. destruct (heap w !! i) as [me|] eqn:Hme;
    [|unfold render; by rewrite Hme].
  destruct (decide (curr me = total (cfg me))) as [Heq|Hne].
  - rewrite (render_completing e i w me Hme Heq). cbv zeta.
    apply (timersOk_same w); [|done]. timers.
  - rewrite (render_running e i w me Hme Hne).
    destruct (noDebounce (debounceLimit me)).
    + apply (timersOk_same w); [|done]. timers.
    + destruct (writeLimit me) eqn:Hwl; [done|]. by apply (timersOk_schedule i w me).
Qed.

Lemma timersOk_tick (e : Env) (i : Id) (len : option Z) (w : World) :
  timersOk w -> timersOk (tick e i len w).
Proof.
  intros Hok. unfold tick. destruct (heap w !! i) as [me|] eqn:Hme; [|done]. cbv zeta.
  destruct (_ <? _).
  - apply (timersOk_same w); [|done]. timers.
  - apply timersOk_render. apply (timersOk_same w); [|done]. timers.
Qed.

Lemma timersOk_setTick (e : Env) (i : Id) (v : Z) (w : World) :
  timersOk w -> timersOk (setTick e i v w).
Proof.
  intros Hok. unfold setTick. destruct (heap w !! i) as [me|] eqn:Hme; [|done]. cbv zeta.
  destruct (_ <? _).
  - apply (timersOk_same w); [|done]. timers.
  - apply timersOk_render. apply (timersOk_same w); [|done]. timers.
Qed.

Lemma armed_disarm (h : Handle) (ts : list (Handle * Id)) (i : Id) :
  armed h ts = Some i ->
  exists l1 l2, ts = l1 ++ (h, i) :: l2 /\ disarm h ts = l1 ++ l2.
Proof.
  induction ts as [|[h' j] ts IH]; [done|]. cbn.
  destruct (Nat.eqb_spec h h') as [->|Hne].
  - intros [= ->]. by exists [], ts.
  - intros Ha. destruct (IH Ha) as (l1 & l2 & -> & ->).
    by exists ((h', j) :: l1), l2.
Qed.

Lemma timersOk_timeoutFires (e : Env) (h : Handle) (w : World) :
  timersOk w -> timersOk (timeoutFires e h w).
Proof.
  intros Hok. unfold timeoutFires.
  destruct (armed h (timeouts w)) as [i|] eqn:Ha; [|done].
  destruct (armed_disarm h _ i Ha) as (l1 & l2 & Hts & Hdis).
  destruct Hok as (Hnd & Hp & Hh & Hn). unfold pending in *.
  rewrite Hts, fmap_app, fmap_cons in Hnd, Hp, Hn. cbn [snd] in Hnd, Hp, Hn.
  apply NoDup_app in Hnd as (Hnd1 & Hnd12 & Hnd2).
  apply NoDup_cons in Hnd2 as (Hi2 & Hnd2).
  assert (Hi1 : i ∉ l1.*2).
  { intros Hi. apply (Hnd12 i Hi). apply list_elem_of_here. }
  set (w1 := set_timeouts (disarm h (timeouts w)) w).
  assert (Hok1 : timersOk w1).
  { unfold timersOk, pending, w1. cbn [timeouts set_timeouts barInc heap].
    rewrite Hdis, fmap_app. split; [|split; [|split]].
    - apply NoDup_app. split; [done|]. split; [|done].
      intros j Hj1 Hj2. apply (Hnd12 j Hj1). by apply list_elem_of_further.
    - intros j [Hj|Hj]%elem_of_app; apply Hp; apply elem_of_app;
        [by left | right; by apply list_elem_of_further].
    - done.
    - intros j b Hb Hwl [Hj|Hj]%elem_of_app; apply (Hn j b Hb Hwl); apply elem_of_app;
        [by left | right; by apply list_elem_of_further]. }
  assert (Hok2 : timersOk (doRender e i w1)).
  { apply (timersOk_same w1); [|done]. timers. }
  destruct Hok2 as (Hnd' & Hp' & Hh' & Hn').
  assert (Hpend : pending (doRender e i w1) = l1.*2 ++ l2.*2).
  { unfold pending. rewrite doRender_timeouts. unfold w1. cbn [timeouts set_timeouts].
    by rewrite Hdis, fmap_app. }
  unfold timersOk, pending in *.
  cbn [timeouts barInc heap update set_heap].
  split; [done|]. split; [done|]. split.
  - intros j [b Hb]. apply Hh'.
    destruct (decide (i = j)) as [->|Hne].
    + rewrite lookup_alter_eq in Hb. destruct (heap (doRender e j w1) !! j); [eauto|done].
    + rewrite lookup_alter_ne in Hb by done. eauto.
  - intros j b Hb Hwl.
    destruct (decide (i = j)) as [->|Hne].
    + rewrite Hpend. intros [Hj|Hj]%elem_of_app; done.
    + rewrite lookup_alter_ne in Hb by done. by apply (Hn' j b Hb Hwl).
Qed.

Lemma timersOk_new (e : Env) (o : Options) (w : World) :
  timersOk w -> timersOk (ProgressBar e o w).1.
Proof.
  intros (Hnd & Hp & Hh & Hn). unfold timersOk, pending in *.
  rewrite ProgressBar_barInc.
  assert (Hto : timeouts (ProgressBar e o w).1 = timeouts w).
  { unfold ProgressBar. by destruct (o_total o), (hookIsFunction (o_onStart o)). }
  rewrite Hto. split; [done|]. split; [|split].
  - intros j Hj. specialize (Hp j Hj). lia.
  - intros j Hj. destruct (decide (j = S (barInc w))) as [->|Hne]; [lia|].
    rewrite ProgressBar_heap in Hj by done. specialize (Hh j Hj). lia.
  - intros j b Hb Hwl Hj.
    destruct (decide (j = S (barInc w))) as [->|Hne].
    + specialize (Hp _ Hj). lia.
    + rewrite ProgressBar_heap in Hb by done. by apply (Hn j b Hb Hwl).
Qed.

Lemma timersOk_step (w : World) (ea : Env * action) : timersOk w -> timersOk (step w ea).
Proof.
  intros Hok. destruct ea as [e a]. unfold step. cbn [fst snd]. destruct a.
  - by apply timersOk_new.
  - by apply timersOk_tick.
  - by apply timersOk_setTick.
  - by apply timersOk_render.
  - apply (timersOk_same w); [|done]. timers.
  - apply (timersOk_same w); [|done]. unfold interrupt. timers.
  - apply (timersOk_same w); [|done]. unfold clearLine. timers.
  - apply (timersOk_same w); [|done]. timers.
  - apply (timersOk_same w); [|done]. timers.
  - apply (timersOk_same w); [|done]. unfold samplerFires. timers.
  - by apply timersOk_timeoutFires.
Qed.

Lemma timersOk_initial : timersOk initial.
Proof.
  unfold timersOk, pending, initial. cbn. split; [apply NoDup_nil_2|].
  split; [by intros j ?%elem_of_nil|]. split.
  - intros j [b Hb]. by rewrite lookup_empty in Hb.
  - intros j b Hb. by rewrite lookup_empty in Hb.
Qed.

Lemma timersOk_run (acts : list (Env * action)) : timersOk (run acts initial).
Proof. apply run_invariant; [apply timersOk_step | apply timersOk_initial]. Qed.

(** C7.  With a debounce interval, at most one timer is outstanding per bar
    in every run.  A render request that finds a timer armed is dropped: the
    world is left as it is; one that finds none arms exactly one.  When the
    timer fires, the frame drawn is the frame of the object as it is at that
    moment, and the bar has no timer left. *)
Theorem debounce_single_timer (acts : list (Env * action)) :
  let w := run acts initial in
  NoDup (pending w)
  /\ (forall e i me,
        heap w !! i = Some me -> curr me <> total (cfg me) ->
        noDebounce (debounceLimit me) = false ->
        (is_Some (writeLimit me) -> render e i w = w)
        /\ (writeLimit me = None -> pending (render e i w) = pending w ++ [i]))
  /\ (forall e h i me,
        armed h (timeouts w) = Some i -> heap w !! i = Some me ->
        noRender (cfg me) = false -> complete me = false -> lastDraw me <> frame e me ->
        exists me' big,
          heap (timeoutFires e h w) !! i = Some me'
          /\ lastDraw me' = frame e me /\ writeLimit me' = None
          /\ (i ∉ pending (timeoutFires e h w))
          /\ trace (timeoutFires e h w)
             = trace w ++ [ClearLine i (Some 1); CursorTo i 0; Write i big]
          /\ (justMe (cfg me) = true -> big = frame e me)).
Proof.
  intros w. pose proof (timersOk_run acts) as Hok. fold w in Hok.
  split; [apply Hok|]. split.
  - intros e i me Hme Hne Hdb. rewrite (render_running e i w me Hme Hne), Hdb. split.
    + by intros [h ->].
    + intros ->. unfold pending, schedule. cbn [timeouts update set_heap set_nextHandle set_timeouts].
      by rewrite fmap_app.
  - intros e h i me Ha Hme Hnr Hcp Hld.
    pose proof (timersOk_timeoutFires e h w Hok) as (_ & _ & _ & Hn).
    revert Hn. unfold timeoutFires. rewrite Ha. intros Hn.
    set (w1 := set_timeouts (disarm h (timeouts w)) w) in *.
    assert (Hme1 : heap w1 !! i = Some me) by exact Hme.
    destruct (doRender_inv e i w1 me Hme1 Hnr)
      as (fs & me' & big & Hfs & _ & _ & _ & _ & _ & _ & _ & _ & _ & _ & _ & Hme' & Heq & Htr
          & _ & _ & _ & _ & _ & _ & Hjm).
    rewrite Hfs in Heq, Htr, Hjm.
    rewrite bool_decide_eq_false_2, Hcp in Heq, Htr by done. cbn [negb andb] in Heq, Htr.
    exists (set_writeLimit None me'), big.
    assert (Hfinal : heap (update i (set_writeLimit None) (doRender e i w1)) !! i
                     = Some (set_writeLimit None me')).
    { by rewrite lookup_update_eq, Hme'. }
    split; [exact Hfinal|]. split; [cbn; by rewrite Heq|]. split; [done|].
    split; [by apply (Hn i _ Hfinal)|]. split; [exact Htr | exact Hjm].
Qed.

(** Three ticks in a row under a debounce of 100 ms arm one timer and draw
    nothing; when it fires, the frame shows the third tick. *)
Example debounced_burst :
  let o := mkOptions (JNumber 10) (Some (lit ":current")) None None None None (Some 100)
             HAbsent HAbsent None false false false None None HAbsent in
  let w := run [ (env0, New o); (env0, Tick 1%nat None); (env0, Tick 1%nat None);
                 (env0, Tick 1%nat None) ] initial in
  pending w = [1%nat] /\ writes (trace w) = []
  /\ writes (trace (timeoutFires env0 0%nat w)) = [lit "-> 3"]
  /\ pending (timeoutFires env0 0%nat w) = [].
Proof. vm_compute. repeat split; reflexivity. Qed.

Lemma debounce_single_timer_witness :
  let o := mkOptions (JNumber 10) (Some (lit ":current")) None None None None (Some 100)
             HAbsent HAbsent None false false false None None HAbsent in
  let acts := [ (env0, New o); (env0, Tick 1%nat None); (env0, Tick 1%nat None) ] in
  let w := run acts initial in
  let me := default (construct env0 1%nat o 10) (heap w !! 1%nat) in
  (heap w !! 1%nat = Some me /\ curr me <> total (cfg me)
   /\ noDebounce (debounceLimit me) = false /\ is_Some (writeLimit me))
  /\ render env0 1%nat w = w.
Proof.
  intros o acts w me.
  assert (Hme : heap w !! 1%nat = Some me) by (vm_compute; reflexivity).
  assert (Hne : curr me <> total (cfg me)) by (vm_compute; discriminate).
  assert (Hdb : noDebounce (debounceLimit me) = false) by (vm_compute; reflexivity).
  assert (Hwl : is_Some (writeLimit me)) by (exists 0%nat; vm_compute; reflexivity).
  split; [exact (conj Hme (conj Hne (conj Hdb Hwl)))|].
  exact (proj1 (proj1 (proj2 (debounce_single_timer acts)) env0 1%nat me Hme Hne Hdb) Hwl).
Defined.

End TimerFacts.

(* ===================================================================== *)
(** * Times *)
(* ===================================================================== *)

Module TimeFacts.
Import JS Model Spec Sample Notions SamplerFacts.

Lemma Qfloor_unique (x : Q) (k : Z) :
  (inject_Z k <= x)%Q -> (x < inject_Z (k + 1))%Q -> Qfloor x = k.
Proof.
  intros Hlo Hhi.
  pose proof (Qfloor_le x) as Hl. pose proof (Qlt_floor x) as Hh.
  assert (H1 : (inject_Z k < inject_Z (Qfloor x + 1))%Q) by lra.
  assert (H2 : (inject_Z (Qfloor x) < inject_Z (k + 1))%Q) by lra.
  rewrite <- Zlt_Qlt in H1, H2. lia.
Qed.

Lemma Qfloor_div_Z (q : Q) (n : Z) :
  0 < n -> Qfloor (q / inject_Z n) = Qfloor q / n.
Proof.
  intros Hn. apply Qfloor_unique.
  - pose proof (Qfloor_le q) as Hl.
    assert (Hk : (Qfloor q / n) * n <= Qfloor q).
    { pose proof (Z.mod_pos_bound (Qfloor q) n Hn). pose proof (Z.div_mod (Qfloor q) n). nia. }
    rewrite Zle_Qle, inject_Z_mult in Hk.
    assert (HN : (0 < inject_Z n)%Q) by (change 0%Q with (inject_Z 0); by rewrite <- Zlt_Qlt).
    apply Qle_shift_div_l; [done|]. lra.
  - pose proof (Qlt_floor q) as Hh.
    assert (Hk : Qfloor q + 1 <= (Qfloor q / n + 1) * n).
    { pose proof (Z.mod_pos_bound (Qfloor q) n Hn). pose proof (Z.div_mod (Qfloor q) n). nia. }
    rewrite Zle_Qle, inject_Z_mult in Hk.
    assert (HN : (0 < inject_Z n)%Q) by (change 0%Q with (inject_Z 0); by rewrite <- Zlt_Qlt).
    apply Qlt_shift_div_r; [done|]. lra.
Qed.

Lemma Qfloor_sub_Z (q : Q) (m : Z) : Qfloor (q - inject_Z m) = Qfloor q - m.
Proof.
  apply Qfloor_unique.
  - pose proof (Qfloor_le q). unfold Z.sub. rewrite inject_Z_plus, inject_Z_opp. lra.
  - pose proof (Qlt_floor q) as Hh. rewrite inject_Z_plus in Hh.
    unfold Z.sub. rewrite !inject_Z_plus, inject_Z_opp. lra.
Qed.

Lemma toString_ofZ (z : Z) : 0 <= z -> toString (ofZ z) = Z_toString z.
Proof.
  intros Hz. unfold toString, ofZ, inject_Z, Qabs_toString. cbn [Qnum Qden].
  replace (z <? 0) with false by (symmetry; apply Z.ltb_ge; lia).
  by rewrite Z.mod_1_r, Z.div_1_r.
Qed.

Lemma gt0_ofZ (z : Z) : gt0 (ofZ z) = (0 <? z).
Proof. unfold gt0, ofZ, Qsgn. cbn. by destruct z. Qed.

Lemma ndiv_Fin_ofZ (q : Q) (n : Z) :
  n <> 0 -> ndiv (Fin q) (ofZ n) = Fin (q / inject_Z n).
Proof.
  intros Hn. unfold ndiv, ofZ.
  replace (Qsgn (inject_Z n) =? 0) with false; [done|].
  symmetry. apply Z.eqb_neq. unfold Qsgn. cbn. lia.
Qed.

Lemma floor_Fin (q : Q) : floor (Fin q) = ofZ (Qfloor q).
Proof. reflexivity. Qed.

Lemma nsub_Fin_mul (q : Q) (a b : Z) :
  nsub (Fin q) (nmul (ofZ a) (ofZ b)) = Fin (q + - (inject_Z a * inject_Z b)).
Proof. reflexivity. Qed.

Lemma nsub_Fin_mul2 (q : Q) (a b c d : Z) :
  nsub (nsub (Fin q) (nmul (ofZ a) (ofZ b))) (nmul (ofZ c) (ofZ d))
  = Fin (q + - (inject_Z a * inject_Z b) + - (inject_Z c * inject_Z d)).
Proof. reflexivity. Qed.

(** [secondsToMin] of a finite number of seconds prints the hours, minutes
    and seconds of its integer part. *)
Lemma secondsToMin_hms (q : Q) : secondsToMin (Fin q) = hms (Qfloor q).
Proof.
  unfold secondsToMin, hms. change (60 * 60) with 3600.
  set (z := Qfloor q).
  assert (Hh : floor (ndiv (Fin q) (ofZ 3600)) = ofZ (z / 3600)).
  { rewrite ndiv_Fin_ofZ, floor_Fin by done. by rewrite Qfloor_div_Z. }
  rewrite Hh.
  assert (Hm : floor (ndiv (nsub (Fin q) (nmul (ofZ (z / 3600)) (ofZ 3600))) (ofZ 60))
               = ofZ (z mod 3600 / 60)).
  { rewrite nsub_Fin_mul, ndiv_Fin_ofZ, floor_Fin by done.
    rewrite Qfloor_div_Z by lia. do 2 f_equal.
    rewrite (Qfloor_comp _ (q - inject_Z (z / 3600 * 3600))).
    - rewrite Qfloor_sub_Z. fold z. rewrite Z.mod_eq by lia. lia.
    - rewrite inject_Z_mult. unfold Qminus. reflexivity. }
  rewrite Hm.
  assert (Hs : floor (nsub (nsub (Fin q) (nmul (ofZ (z mod 3600 / 60)) (ofZ 60)))
                        (nmul (ofZ (z / 3600)) (ofZ 3600)))
               = ofZ (z mod 60)).
  { rewrite nsub_Fin_mul2, floor_Fin. f_equal.
    rewrite (Qfloor_comp _ (q - inject_Z (z mod 3600 / 60 * 60 + z / 3600 * 3600))).
    - rewrite Qfloor_sub_Z. fold z.
      pose proof (Z.div_mod z 3600). pose proof (Z.div_mod (z mod 3600) 60).
      pose proof (Z.mod_pos_bound z 3600). pose proof (Z.mod_pos_bound (z mod 3600) 60).
      pose proof (Z.div_mod z 60). pose proof (Z.mod_pos_bound z 60). lia.
    - rewrite inject_Z_plus, !inject_Z_mult. ring. }
  rewrite Hs, gt0_ofZ.
  assert (0 <= z mod 3600 / 60) by (apply Z.div_pos; [apply Z.mod_pos_bound|]; lia).
  assert (0 <= z mod 60) by (apply Z.mod_pos_bound; lia).
  rewrite !(toString_ofZ (z mod 3600 / 60)), !(toString_ofZ (z mod 60)) by done.
  destruct (0 <? z / 3600) eqn:Hpos; [|done].
  rewrite toString_ofZ; [done|]. apply Z.ltb_lt in Hpos. lia.
Qed.

(** X1.  [secondsToMin] of a number of seconds between 0 and [2^53] prints
    hours, minutes and seconds that recompose to the integer part of its
    argument, with minutes and seconds between 0 and 59; the hours are
    printed only when positive.  (On this range the subtractions of the
    source are exact; on negative arguments they are not.) *)
Theorem secondsToMin_fields (q : Q) :
  (0 <= q)%Q -> (q <= inject_Z (2 ^ 53))%Q ->
  let z := Qfloor q in
  let h := z / 3600 in
  let m := z mod 3600 / 60 in
  let s := z mod 60 in
  secondsToMin (Fin q)
  = (if 0 <? h then Z_toString h ++ lit "hr " else [])
      ++ Z_toString m ++ lit "min " ++ Z_toString s ++ lit "sec"
  /\ h * 3600 + m * 60 + s = z /\ 0 <= h /\ 0 <= m < 60 /\ 0 <= s < 60.
Proof.
  intros Hq _. cbv zeta. split; [apply secondsToMin_hms|].
  set (z := Qfloor q).
  assert (Hz : 0 <= z).
  { unfold z. change 0 with (Qfloor (inject_Z 0)). by apply Qfloor_resp_le. }
  pose proof (Z.div_mod z 3600). pose proof (Z.div_mod (z mod 3600) 60).
  pose proof (Z.mod_pos_bound z 3600). pose proof (Z.mod_pos_bound (z mod 3600) 60).
  pose proof (Z.div_mod z 60). pose proof (Z.mod_pos_bound z 60).
  pose proof (Z.div_pos z 3600). lia.
Qed.

Lemma secondsToMin_fields_witness :
  ((0 <= (7451 # 2))%Q /\ ((7451 # 2) <= inject_Z (2 ^ 53))%Q)
  /\ secondsToMin (Fin (7451 # 2)) = lit "1hr 2min 5sec".
Proof.
  assert (H0 : (0 <= (7451 # 2))%Q) by (vm_compute; discriminate).
  assert (H1 : ((7451 # 2) <= inject_Z (2 ^ 53))%Q) by (vm_compute; discriminate).
  split; [exact (conj H0 H1)|].
  rewrite (proj1 (secondsToMin_fields (7451 # 2) H0 H1)). vm_compute. reflexivity.
Defined.




End TimeFacts.

(* ===================================================================== *)
(** * The life of a bar *)
(* ===================================================================== *)

Module LifecycleFacts.
Import JS Model Spec Sample Notions StringFacts FormatFacts RenderFacts WorldFacts
  SamplerFacts TickFacts TimerFacts TimeFacts.

#[local] Opaque doFormat.



(** ** [setTick] *)

(** X4.  [setTick(v)] with [v] below the total assigns [curr] and renders.
    Without a debounce limit the frame of the new count is formatted and,
    unless it equals the frame last drawn (or the bar is flagged complete or
    does not render), written to the terminal (alone, or with the lines of
    the other bars when there are some and the bar has no [justMe]) and kept
    in [lastDraw].  With a
    debounce limit and no timer pending, one timer is armed for the bar and
    nothing is written; with a timer pending nothing more happens.  In each
    case the sample tally, the flags, the sampler and the report are left as
    they are and no hook runs.  With [v] beyond the total it assigns [curr],
    sets the [complete] flag and does nothing else. *)
Theorem setTick_assigns (e : Env) (i : Id) (v : Z) (w : World) (me : Bar) :
  heap w !! i = Some me ->
  (v < total (cfg me) ->
     let fr := frame e (set_curr v me) in
     let drawn := negb (bool_decide (lastDraw me = fr)) && negb (complete me)
                  && negb (noRender (cfg me)) in
     (noDebounce (debounceLimit me) = true ->
        exists me',
          heap (setTick e i v w) !! i = Some me' /\ core me' = core (set_curr v me)
          /\ lastDraw me' = (if drawn then fr else lastDraw me)
          /\ trace (setTick e i v w)
             = trace w
               ++ (if drawn
                   then [ClearLine i (Some 1); CursorTo i 0; Write i (written w i me fr)]
                   else [])
          /\ timeouts (setTick e i v w) = timeouts w)
     /\ (noDebounce (debounceLimit me) = false -> writeLimit me = None ->
          setTick e i v w = schedule i (update i (set_curr v) w)
          /\ pending (setTick e i v w) = pending w ++ [i]
          /\ trace (setTick e i v w) = trace w
          /\ heap (setTick e i v w) !! i
             = Some (set_writeLimit (Some (nextHandle w)) (set_curr v me)))
     /\ (noDebounce (debounceLimit me) = false -> is_Some (writeLimit me) ->
          setTick e i v w = update i (set_curr v) w))
  /\ (total (cfg me) < v ->
       setTick e i v w = update i (set_complete true) (update i (set_curr v) w)).
Proof.
  intros Hme. split.
  - intros Hlt. cbv zeta.
    assert (Hs : setTick e i v w = render e i (update i (set_curr v) w)).
    { unfold setTick. rewrite Hme.
      by replace (total (cfg me) <? v) with false by (symmetry; apply Z.ltb_ge; lia). }
    set (w1 := update i (set_curr v) w) in *.
    assert (H1 : heap w1 !! i = Some (set_curr v me)).
    { unfold w1. by rewrite lookup_update_eq, Hme. }
    rewrite Hs, (render_running e i w1 _ H1) by (cbn; lia).
    cbn [debounceLimit writeLimit set_curr].
    split; [|split].
    + intros ->.
      destruct (doRender_outcome e i w1 _ H1) as (b & Hb & Hcb & _ & Hlb & Htb & Hto).
      exists b. split; [exact Hb|]. split; [exact Hcb|]. split; [exact Hlb|].
      split; [|exact Hto].
      rewrite (written_ext w1 w i (set_curr v me) me) in Htb; [exact Htb | done | done | | done].
      intros k. unfold w1. rewrite lookup_update.
      destruct (decide (i = k)); [|done]. by destruct (heap w !! k).
    + intros -> ->. split; [done|].
      unfold schedule, pending.
      cbn [timeouts trace update set_heap set_nextHandle set_timeouts].
      rewrite fmap_app. split; [done|]. split; [done|].
      rewrite lookup_update_eq. cbn [heap set_nextHandle set_timeouts]. by rewrite H1.
    + intros -> [h ->]. done.
  - intros Hlt. unfold setTick. rewrite Hme.
    by replace (total (cfg me) <? v) with true by (symmetry; apply Z.ltb_lt; lia).
Qed.

Lemma setTick_assigns_witness :
  let o := plain 10 (lit ":current") 10 in
  let w := (ProgressBar env0 o initial).1 in
  let me := construct env0 1%nat o 10 in
  (heap w !! 1%nat = Some me /\ 7 < total (cfg me)
   /\ noDebounce (debounceLimit me) = true)
  /\ writes (trace (setTick env0 1%nat 7 w)) = [lit "-> 7"]
  /\ exists me', heap (setTick env0 1%nat 7 w) !! 1%nat = Some me'
       /\ curr me' = 7 /\ sample me' = 0 /\ lastDraw me' = lit "-> 7".
Proof.
  intros o w me.
  assert (Hme : heap w !! 1%nat = Some me) by (vm_compute; reflexivity).
  assert (Hlt : 7 < total (cfg me)) by reflexivity.
  assert (Hnd : noDebounce (debounceLimit me) = true) by reflexivity.
  split; [exact (conj Hme (conj Hlt Hnd))|].
  destruct (proj1 (proj1 (setTick_assigns env0 1%nat 7 w me Hme) Hlt) Hnd)
    as (me' & Hme' & Hc & Hld & Htr & _).
  split; [vm_compute; reflexivity|].
  exists me'. apply core_fields in Hc as (_ & _ & Hcurr & Hsam & _).
  split; [exact Hme'|]. split; [exact Hcurr|]. split; [exact Hsam|].
  rewrite Hld. vm_compute. reflexivity.
Defined.

(** ** Completion *)




End LifecycleFacts.

(* ===================================================================== *)
(** * The registry and the configuration *)
(* ===================================================================== *)

Module RegistryFacts.
Import JS Model Spec Sample Notions StringFacts FormatFacts RenderFacts WorldFacts
  SamplerFacts TickFacts TimerFacts.

#[local] Opaque doFormat.

Lemma action_cases (ea : Env * action) :
  (exists o, ea.2 = New o) \/ (forall o, ea.2 <> New o).
Proof. destruct ea as [e []]; cbn; eauto; right; intros; discriminate. Qed.

Lemma ProgressBar_bars (e : Env) (o : Options) (w : World) :
  bars (ProgressBar e o w).1 = bars w ++ [S (barInc w)].
Proof. unfold ProgressBar. by destruct (o_total o), (hookIsFunction (o_onStart o)). Qed.

Lemma registryOk_step (w : World) (ea : Env * action) :
  registryOk w -> registryOk (step w ea).
Proof.
  intros (Hb & Hh). destruct (action_cases ea) as [[o Ho]|Hno].
  - destruct ea as [e a]. cbn in Ho. subst a. cbn [step fst snd]. split.
    + rewrite ProgressBar_bars, ProgressBar_barInc, Hb. by rewrite seq_S.
    + intros j me Hme. rewrite ProgressBar_barInc.
      destruct (decide (j = S (barInc w))) as [->|Hj].
      * rewrite ProgressBar_new in Hme. destruct (o_total o);
          try (destruct (Hh _ _ Hme); lia).
        injection Hme as <-. cbn. lia.
      * rewrite ProgressBar_heap in Hme by done. destruct (Hh _ _ Hme). lia.
  - destruct (evolves_step w ea Hno) as (Hbi & Hbs & Hev). split.
    + by rewrite Hbs, Hbi.
    + intros j me' Hme'. rewrite Hbi.
      destruct (evolves_lookup_inv w _ j me' (conj Hbi (conj Hbs Hev)) Hme')
        as (me & Hme & (Hid & _)).
      destruct (Hh _ _ Hme). split; [congruence | done].
Qed.

Lemma registryOk_initial : registryOk initial.
Proof. split; [done|]. intros j me Hme. cbn in Hme. by rewrite lookup_empty in Hme. Qed.

(** X6.  In every run the identifiers handed out are 1, 2, ... in order and
    without repetition, every object carries the identifier it is registered
    under, and a construction, rejected or not, takes the next identifier,
    which no object has yet. *)
Theorem identifiers_are_sequential (acts : list (Env * action)) :
  let w := run acts initial in
  bars w = seq 1 (barInc w) /\ NoDup (bars w)
  /\ (forall (j : Id) me, heap w !! j = Some me -> id me = j /\ (1 <= j <= barInc w)%nat)
  /\ (forall e o, barInc (ProgressBar e o w).1 = S (barInc w)
                  /\ bars (ProgressBar e o w).1 = bars w ++ [S (barInc w)]
                  /\ heap w !! S (barInc w) = None).
Proof.
  intros w.
  assert (Hok : registryOk w) by (apply run_invariant; [apply registryOk_step | apply registryOk_initial]).
  destruct Hok as (Hb & Hh).
  split; [exact Hb|]. split; [rewrite Hb; apply NoDup_seq|]. split; [exact Hh|].
  intros e o. split; [apply ProgressBar_barInc|]. split; [apply ProgressBar_bars|].
  destruct (heap w !! S (barInc w)) as [me|] eqn:Hme; [|done].
  destruct (Hh _ _ Hme). lia.
Qed.

Lemma identifiers_are_sequential_witness :
  let acts := [ (env0, New (options (JString (lit "ten")) None));
                (env0, New (options (JNumber 10) None)) ] in
  let w := run acts initial in
  let me := construct env0 2%nat (options (JNumber 10) None) 10 in
  heap w !! 2%nat = Some me
  /\ (id me = 2%nat /\ (1 <= 2 <= barInc w)%nat) /\ bars w = seq 1 (barInc w).
Proof.
  intros acts w me.
  assert (Hme : heap w !! 2%nat = Some me) by (vm_compute; reflexivity).
  destruct (identifiers_are_sequential acts) as (Hb & _ & Hh & _).
  exact (conj Hme (conj (Hh 2%nat me Hme) Hb)).
Defined.

Lemma configOk_construct (e : Env) (i : Id) (o : Options) (t : Z) :
  configOk (cfg (construct e i o t)).
Proof.
  unfold configOk, construct. cbn.
  assert (Hs : forall x d, d <> [] -> orStr x d <> []).
  { intros [[|]|] d Hd; cbn; done. }
  assert (Hz : forall x d, d <> 0 -> orZ x d <> 0).
  { intros [[| |]|] d Hd; cbn; done. }
  repeat split; first [ apply Hs; first [done | apply Hs; done] | apply Hz; done ].
Qed.

(** X7.  Whatever options are passed, a bar has a non-empty template, title
    and glyphs and a non-zero width and delay (an empty string or a 0 is
    replaced by the default, so [width: 0] yields 40), and [logResult] is
    always on.  No call ever changes what the constructor derived from the
    options other than [debounce]: template, total, width, glyphs, hooks,
    tick template, [justMe], [noRender], [clear], title, [logResult], [delay]
    and the start time stay as constructed.  The debounce limit is not among
    them: drawing can overwrite it. *)
Theorem options_but_debounce_are_fixed (acts acts' : list (Env * action)) (j : Id) (me : Bar) :
  heap (run acts initial) !! j = Some me ->
  configOk (cfg me)
  /\ exists me', heap (run acts' (run acts initial)) !! j = Some me' /\ cfg me' = cfg me.
Proof.
  intros Hme. split.
  - revert j me Hme.
    apply (run_invariant (fun w => forall (j : Id) me, heap w !! j = Some me -> configOk (cfg me))).
    + intros w ea Hw j me Hme. destruct (action_cases ea) as [[o Ho]|Hno].
      * destruct ea as [e a]. cbn in Ho. subst a. cbn [step fst snd] in Hme.
        destruct (decide (j = S (barInc w))) as [->|Hj].
        -- rewrite ProgressBar_new in Hme. destruct (o_total o); try by apply (Hw _ _ Hme).
           injection Hme as <-. apply configOk_construct.
        -- rewrite ProgressBar_heap in Hme by done. by apply (Hw _ _ Hme).
      * destruct (evolves_lookup_inv w _ j me (evolves_step w ea Hno) Hme)
          as (me0 & Hme0 & (_ & Hcfg & _)).
        rewrite Hcfg. by apply (Hw _ _ Hme0).
    + intros j me Hme. cbn in Hme. by rewrite lookup_empty in Hme.
  - assert (Hok : registryOk (run acts initial))
      by (apply run_invariant; [apply registryOk_step | apply registryOk_initial]).
    destruct Hok as (_ & Hh). destruct (Hh _ _ Hme) as (_ & Hj).
    destruct (run_later acts' _ j me Hme) as (me' & Hme' & (_ & Hcfg & _)); [lia|].
    eauto.
Qed.

Lemma options_but_debounce_are_fixed_witness :
  let o := mkOptions (JNumber 10) (Some []) (Some 0) (Some []) None None (Some 0)
             HAbsent HAbsent None false false false (Some []) (Some 0) HAbsent in
  let acts := [ (env0, New o) ] in
  let me := construct env0 1%nat o 10 in
  heap (run acts initial) !! 1%nat = Some me
  /\ configOk (cfg me) /\ width (cfg me) = 40.
Proof.
  intros o acts me.
  assert (Hme : heap (run acts initial) !! 1%nat = Some me) by (vm_compute; reflexivity).
  split; [exact Hme|].
  destruct (options_but_debounce_are_fixed acts [] 1%nat me Hme) as [Hc _].
  split; [exact Hc | reflexivity].
Defined.

End RegistryFacts.

(* ===================================================================== *)
(** * Templates *)
(* ===================================================================== *)

Module TemplateFacts.
Import JS Model Spec Sample Notions StringFacts FormatFacts TimeFacts.

Lemma replace_absent (p r s : str) : indexOf p s = None -> replace p r s = s.
Proof. intros H. unfold replace. by rewrite H. Qed.

Lemma replaceAll1_absent (table : list (str * str)) (s : str) :
  Forall (fun p => indexOf p s = None) table.*1 -> replaceAll1 table s = s.
Proof.
  induction table as [|[p r] table IH]; [done|].
  intros H. inversion H as [|? ? Hp Ht]; subst.
  change (replaceAll1 ((p, r) :: table) s) with (replaceAll1 table (replace p r s)).
  cbn [fst] in Hp. rewrite (replace_absent p r s Hp). by apply IH.
Qed.

(** X8.  A template in which none of the thirteen tokens occurs is returned
    as it is: [doFormat] adds nothing of its own. *)
Theorem template_without_tokens (e : Env) (me : Bar) (format : str) :
  Forall (fun t => indexOf t format = None) tokens ->
  (doFormat e me format).2 = format.
Proof.
  unfold tokens. intros H. apply Forall_app in H as [Hp Hb]. inversion Hb as [|? ? Hb' _]; subst.
  rewrite doFormat_string.
  destruct (substituted_table e me format) as (table & Htable & Hs).
  assert (Hsub : substituted e me format = format).
  { rewrite Hs. apply replaceAll1_absent. by rewrite Htable. }
  rewrite Hsub. apply replace_absent. exact Hb'.
Qed.

Lemma template_without_tokens_witness :
  Forall (fun t => indexOf t (lit "loading 12:30") = None) tokens
  /\ (doFormat env0 (barAt (options (JNumber 10) None) 10 5) (lit "loading 12:30")).2
     = lit "loading 12:30".
Proof.
  assert (H : Forall (fun t => indexOf t (lit "loading 12:30") = None) tokens).
  { apply Forall_forall. intros t Ht. apply list_elem_of_In in Ht.
    vm_compute in Ht. repeat (destruct Ht as [<-|Ht]; [vm_compute; reflexivity|]). done. }
  split; [exact H|].
  exact (template_without_tokens env0 _ _ H).
Defined.

(** ** One token *)

Lemma inert_app (s t : str) : inert (s ++ t) = inert s && inert t.
Proof. unfold inert. apply forallb_app. Qed.

Lemma inert_colonfree (s : str) : inert s = true -> colonfree s = true.
Proof.
  unfold inert, colonfree. induction s as [|c s IH]; [done|]. cbn.
  intros [[Hc _]%andb_true_iff Hs]%andb_true_iff. rewrite Hc. by apply IH.
Qed.

Lemma colonfree_app (s t : str) : colonfree (s ++ t) = colonfree s && colonfree t.
Proof. unfold colonfree. apply forallb_app. Qed.

Lemma getSubstitution_inert (m a b r : str) :
  inert r = true -> getSubstitution m a b r = r.
Proof.
  induction r as [|c r IH]; [done|]. unfold inert. cbn [forallb].
  intros [[_ Hd]%andb_true_iff Hr]%andb_true_iff.
  cbn [getSubstitution]. apply negb_true_iff in Hd. rewrite Hd. f_equal. by apply IH.
Qed.

Lemma indexOf_colonfree (p s : str) :
  tokenlike p = true -> colonfree s = true -> indexOf p s = None.
Proof.
  intros (p' & -> & _)%tokenlike_inv. induction s as [|c s IH]; [done|].
  cbn [colonfree forallb]. intros [Hc Hs]%andb_true_iff.
  cbn [indexOf prefixb]. apply negb_true_iff in Hc. rewrite N.eqb_sym in Hc. rewrite Hc.
  cbn. by rewrite (IH Hs).
Qed.

Lemma indexOf_app_colonfree (p a s : str) :
  tokenlike p = true -> colonfree a = true ->
  indexOf p (a ++ s) = (fun n => length a + n)%nat <$> indexOf p s.
Proof.
  intros (p' & -> & Hp)%tokenlike_inv. induction a as [|c a IH].
  - intros _. cbn. by destruct (indexOf _ s).
  - cbn [colonfree forallb]. intros [Hc Ha]%andb_true_iff.
    rewrite <- app_comm_cons. cbn [indexOf prefixb].
    apply negb_true_iff in Hc. rewrite N.eqb_sym in Hc. rewrite Hc. cbn [andb].
    rewrite (IH Ha). by destruct (indexOf _ s).
Qed.

Lemma prefixb_self (t b : str) : prefixb t (t ++ b) = true.
Proof. induction t as [|c t IH]; [done|]. cbn. by rewrite N.eqb_refl. Qed.

Lemma indexOf_prefix (p s : str) : prefixb p s = true -> indexOf p s = Some 0%nat.
Proof. intros H. destruct s; cbn [indexOf]; by rewrite H. Qed.

Lemma diverge_sym (t u : str) : diverge t u = diverge u t.
Proof.
  revert u. induction t as [|c t IH]; intros [|d u]; cbn; try done.
  rewrite (N.eqb_sym d c). by rewrite IH.
Qed.

Lemma indexOf_other (p t b : str) :
  tokenlike p = true -> tokenlike t = true -> diverge p t = true ->
  colonfree b = true -> indexOf p (t ++ b) = None.
Proof.
  intros Hp Ht Hd Hb. destruct (tokenlike_inv t Ht) as (t' & -> & Ht').
  rewrite <- app_comm_cons. cbn [indexOf].
  pose proof (diverge_prefixb p (colon :: t') b Hd) as Hpre.
  rewrite <- app_comm_cons in Hpre. rewrite Hpre.
  rewrite (indexOf_colonfree p (t' ++ b) Hp); [done|].
  by rewrite colonfree_app, Ht', Hb.
Qed.

(** [replace] on a text with one token between colon-free texts. *)
Lemma replace_here (t v a b : str) :
  tokenlike t = true -> colonfree a = true -> inert v = true ->
  replace t v (a ++ t ++ b) = a ++ v ++ b.
Proof.
  intros Ht Ha Hv. unfold replace.
  rewrite (indexOf_app_colonfree t a _ Ht Ha), (indexOf_prefix t _ (prefixb_self t b)).
  cbn [fmap option_fmap option_map]. rewrite Nat.add_0_r.
  rewrite take_app_length, getSubstitution_inert by done.
  by rewrite drop_app_add, drop_app_length.
Qed.

Lemma replace_elsewhere (p r t a b : str) :
  tokenlike p = true -> tokenlike t = true -> diverge p t = true ->
  colonfree a = true -> colonfree b = true ->
  replace p r (a ++ t ++ b) = a ++ t ++ b.
Proof.
  intros Hp Ht Hd Ha Hb. apply replace_absent.
  by rewrite (indexOf_app_colonfree p a _ Hp Ha), (indexOf_other p t b Hp Ht Hd Hb).
Qed.

Lemma replaceAll1_colonfree (table : list (str * str)) (s : str) :
  Forall (fun p => tokenlike p = true) table.*1 -> colonfree s = true ->
  replaceAll1 table s = s.
Proof.
  intros Ht Hs. apply replaceAll1_absent.
  eapply Forall_impl; [exact Ht|]. intros p Hp. by apply indexOf_colonfree.
Qed.

Lemma pairwiseDiverge_spec (ps : list str) (p q : str) :
  pairwiseDiverge ps = true -> p ∈ ps -> q ∈ ps -> p <> q -> diverge p q = true.
Proof.
  intros H Hp%list_elem_of_In Hq%list_elem_of_In Hne.
  unfold pairwiseDiverge in H. rewrite forallb_forall in H.
  specialize (H p Hp). rewrite forallb_forall in H. specialize (H q Hq).
  apply orb_true_iff in H as [H|H]; [|done]. by apply bool_decide_eq_true in H.
Qed.

(** A chain of replacements on a text with one token of the chain. *)
Lemma replaceAll1_single (table : list (str * str)) (t v a b : str) :
  Forall (fun p => tokenlike p = true) table.*1 ->
  (forall p q, p ∈ table.*1 -> q ∈ table.*1 -> p <> q -> diverge p q = true) ->
  NoDup table.*1 -> (t, v) ∈ table ->
  inert v = true -> colonfree a = true -> colonfree b = true ->
  replaceAll1 table (a ++ t ++ b) = a ++ v ++ b.
Proof.
  intros Htok Hdiv Hnd Hin Hv Ha Hb.
  induction table as [|[p r] table IH]; [by apply elem_of_nil in Hin|].
  rewrite fmap_cons in Htok, Hdiv, Hnd. cbn [fst] in Htok, Hdiv, Hnd.
  inversion Htok as [|? ? Hp Htok']; subst.
  apply NoDup_cons in Hnd as [Hnp Hnd'].
  change (replaceAll1 ((p, r) :: table) (a ++ t ++ b))
    with (replaceAll1 table (replace p r (a ++ t ++ b))).
  apply elem_of_cons in Hin as [Heq|Hin].
  - injection Heq as <- <-. rewrite replace_here by done.
    apply replaceAll1_colonfree; [done|].
    rewrite !colonfree_app, Ha, Hb, (inert_colonfree _ Hv). done.
  - assert (Htin : t ∈ table.*1).
    { apply list_elem_of_fmap. by exists (t, v). }
    assert (Hne : p <> t) by (intros ->; done).
    assert (Htt : tokenlike t = true).
    { rewrite Forall_forall in Htok'. by apply Htok'. }
    rewrite (replace_elsewhere p r t a b); try done.
    + apply IH; try done. intros x y Hx Hy. apply Hdiv; by apply list_elem_of_further.
    + apply Hdiv; [apply list_elem_of_here | by apply list_elem_of_further | done].
Qed.

(** ** The values are inert *)

Lemma inert_uint (u : Decimal.uint) : inert (lit (NilEmpty.string_of_uint u)) = true.
Proof. induction u; cbn; done. Qed.

Lemma inert_Z_toString (z : Z) : inert (Z_toString z) = true.
Proof.
  unfold Z_toString. destruct (Z.to_int z) as [u|u]; cbn [NilZero.string_of_int].
  - unfold NilZero.string_of_uint. destruct u; first [done | apply inert_uint].
  - change (lit (String "-" ?s)) with (45%N :: lit s).
    change (inert (45%N :: ?s)) with (inert s).
    unfold NilZero.string_of_uint. destruct u; first [done | apply inert_uint].
Qed.

Lemma inert_fracDigits (fuel : nat) (r d : Z) :
  0 <= r < d -> inert (fracDigits fuel r d) = true.
Proof.
  revert r. induction fuel as [|fuel IH]; intros r Hr; [done|].
  cbn [fracDigits]. destruct (r =? 0); [done|].
  assert (Hq : 0 <= 10 * r / d < 10).
  { split; [apply Z.div_pos; lia | apply Z.div_lt_upper_bound; lia]. }
  unfold inert. cbn [forallb]. fold (inert (fracDigits fuel (10 * r mod d) d)).
  rewrite IH by (apply Z.mod_pos_bound; lia). rewrite andb_true_r.
  apply andb_true_iff. split; apply negb_true_iff, N.eqb_neq; unfold colon, dollar; lia.
Qed.

Lemma inert_Qabs_toString (n d : Z) : 0 < d -> inert (Qabs_toString n d) = true.
Proof.
  intros Hd. unfold Qabs_toString. destruct (n mod d =? 0); [apply inert_Z_toString|].
  rewrite !inert_app, inert_Z_toString, inert_fracDigits by (apply Z.mod_pos_bound; lia).
  done.
Qed.

Lemma inert_toString (x : num) : inert (toString x) = true.
Proof.
  destruct x as [| | |q]; try done. unfold toString.
  destruct (Qnum q <? 0).
  - rewrite inert_app, inert_Qabs_toString by done. done.
  - by apply inert_Qabs_toString.
Qed.

Lemma inert_toFixed0 (x : num) : inert (toFixed0 x) = true.
Proof.
  destruct x as [| | |q]; try done. unfold toFixed0.
  destruct (Qsgn q <? 0); [rewrite inert_app|]; by rewrite inert_Z_toString.
Qed.

Lemma inert_secondsToMin (x : num) : inert (secondsToMin x) = true.
Proof.
  unfold secondsToMin. rewrite !inert_app, !inert_toString.
  match goal with |- context [if ?c then _ else _] => destruct c end;
    [rewrite inert_app, inert_toString|]; done.
Qed.

Lemma tokenValues_inert (e : Env) (me : Bar) :
  Forall (fun pr => inert pr.2 = true) (tokenValues e me).
Proof.
  unfold tokenValues, tokenTable, elapsed. cbn [fst snd].
  repeat constructor; cbn [snd];
    first [ apply inert_Z_toString | apply inert_secondsToMin | apply inert_toString
          | rewrite inert_app, inert_toFixed0; done | done ].
Qed.

Lemma patterns_checked :
  forallb tokenlike patterns && pairwiseDiverge patterns
  && bool_decide (NoDup patterns) = true.
Proof. vm_compute. reflexivity. Qed.

Lemma substituted_values (e : Env) (me : Bar) (format : str) :
  substituted e me format = replaceAll1 (tokenValues e me) format.
Proof. reflexivity. Qed.

Lemma tokenValues_patterns (e : Env) (me : Bar) : (tokenValues e me).*1 = patterns.
Proof. reflexivity. Qed.

(** [doFormat] on a template with one token of the chain between colon-free
    texts. *)
Lemma doFormat_single (e : Env) (me : Bar) (a b t v : str) :
  colonfree a = true -> colonfree b = true -> (t, v) ∈ tokenValues e me ->
  (doFormat e me (a ++ t ++ b)).2 = a ++ v ++ b.
Proof.
  intros Ha Hb Hin.
  pose proof patterns_checked as Hchk.
  apply andb_true_iff in Hchk as [Hchk Hnd]. apply andb_true_iff in Hchk as [Htok Hdiv].
  apply bool_decide_eq_true in Hnd. rewrite forallb_forall in Htok.
  assert (Hv : inert v = true).
  { pose proof (tokenValues_inert e me) as Hi. rewrite Forall_forall in Hi.
    by apply (Hi (t, v)). }
  rewrite doFormat_string, substituted_values.
  rewrite (replaceAll1_single (tokenValues e me) t v a b).
  - apply replace_absent, indexOf_colonfree; [done|].
    by rewrite !colonfree_app, Ha, Hb, (inert_colonfree _ Hv).
  - rewrite tokenValues_patterns. apply Forall_forall. intros p Hp.
    apply Htok. by apply list_elem_of_In.
  - rewrite tokenValues_patterns. intros p q. by apply pairwiseDiverge_spec.
  - by rewrite tokenValues_patterns.
  - exact Hin.
  - exact Hv.
  - exact Ha.
  - exact Hb.
Qed.

(** X9.  In a template made of one token other than [:bar] between two
    texts without a colon, [doFormat] puts the value of the token in its
    place and copies the rest: the value is never itself reinterpreted as a
    token or as a replacement pattern. *)
Theorem single_token_template (e : Env) (me : Bar) (a b t v : str) :
  colonfree a = true -> colonfree b = true -> (t, v) ∈ tokenValues e me ->
  (doFormat e me (a ++ t ++ b)).2 = a ++ v ++ b
  /\ inert v = true.
Proof.
  intros Ha Hb Hin. split; [by apply doFormat_single|].
  pose proof (tokenValues_inert e me) as Hi. rewrite Forall_forall in Hi.
  by apply (Hi (t, v)).
Qed.

Lemma single_token_template_witness :
  let me := barAt (options (JNumber 10) None) 10 5 in
  (colonfree (lit "done ") = true /\ colonfree (lit " items") = true
   /\ (lit ":current", Z_toString 5) ∈ tokenValues env0 me)
  /\ (doFormat env0 me (lit "done " ++ lit ":current" ++ lit " items")).2
     = lit "done " ++ Z_toString 5 ++ lit " items".
Proof.
  intros me.
  assert (Ha : colonfree (lit "done ") = true) by reflexivity.
  assert (Hb : colonfree (lit " items") = true) by reflexivity.
  assert (Hin : (lit ":current", Z_toString 5) ∈ tokenValues env0 me).
  { unfold tokenValues, tokenTable, elapsed. cbn [fst snd].
    do 6 apply list_elem_of_further. apply list_elem_of_here. }
  split; [exact (conj Ha (conj Hb Hin))|].
  exact (proj1 (single_token_template env0 me _ _ _ _ Ha Hb Hin)).
Defined.




End TemplateFacts.

(* ===================================================================== *)
(** * Substitution in context *)
(* ===================================================================== *)

Module SubstitutionFacts.
Import JS Model Spec Sample Notions StringFacts FormatFacts TimeFacts TemplateFacts.

(** ** Occurrences around an opaque segment *)









(** ** The patterns and the values *)












(** ** The chain on a string with an opaque segment *)













(** ** The values of the chain are foreign *)


Lemma foreign_split (v : str) :
  foreign v = match v with c :: _ => alien c | [] => false end && inert v.
Proof. by destruct v. Qed.











(** ** The first occurrence *)








(** ** First occurrences *)



End SubstitutionFacts.

(* ===================================================================== *)
(** * Several bars on one terminal *)
(* ===================================================================== *)

Module SharingFacts.
Import JS Model Spec Sample Notions StringFacts FormatFacts RenderFacts WorldFacts TickFacts.

#[local] Opaque doFormat.

Lemma set_debounceLimit_twice (d : option Z) (b : Bar) :
  set_debounceLimit d (set_debounceLimit d b) = set_debounceLimit d b.
Proof. reflexivity. Qed.

(** An object that already has the limit [d] keeps it through the [forEach]. *)
Lemma stack_keep (d : Z) (lines : gmap Id str) (ks : list Id)
    (acc : gmap Id Bar * str) (j : Id) (b : Bar) :
  acc.1 !! j = Some (set_debounceLimit (Some d) b) ->
  (foldl (stackStep d lines) acc ks).1 !! j = Some (set_debounceLimit (Some d) b).
Proof.
  revert acc. induction ks as [|k ks IH]; intros acc Hb; [done|].
  simpl. apply IH. unfold stackStep.
  destruct (acc.1 !! k) as [c|] eqn:Hc; [|done].
  destruct (lines !! k); [|done]. simpl.
  destruct (justMe (cfg c)); [|done].
  destruct (decide (k = j)) as [->|Hne].
  - rewrite lookup_insert_eq. rewrite Hb in Hc. injection Hc as <-.
    by rewrite set_debounceLimit_twice.
  - by rewrite lookup_insert_ne.
Qed.

(** A [justMe] object with a line, among the keys, gets the limit [d]. *)
Lemma stack_assign (d : Z) (lines : gmap Id str) (ks : list Id)
    (acc : gmap Id Bar * str) (j : Id) (b : Bar) (s : str) :
  justMe (cfg b) = true -> acc.1 !! j = Some b -> lines !! j = Some s -> j ∈ ks ->
  (foldl (stackStep d lines) acc ks).1 !! j = Some (set_debounceLimit (Some d) b).
Proof.
  intros Hjm. revert acc. induction ks as [|k ks IH]; intros acc Hb Hl Hin.
  - by apply elem_of_nil in Hin.
  - simpl. destruct (decide (k = j)) as [->|Hne].
    + apply stack_keep. unfold stackStep. rewrite Hb. cbv beta iota.
      destruct (lines !! j) eqn:E.
      2:{ discriminate Hl. }
      cbn [fst snd]. rewrite Hjm.
      apply lookup_insert_eq.
    + apply IH; [|done|].
      * unfold stackStep.
        destruct (acc.1 !! k) as [c|] eqn:Hc; [|done].
        destruct (lines !! k); [|done]. simpl.
        destruct (justMe (cfg c)); [|done]. by rewrite lookup_insert_ne.
      * apply elem_of_cons in Hin as [->|Hin]; done.
Qed.

(** An object without [justMe] is left as it is. *)
Lemma stack_skip (d : Z) (lines : gmap Id str) (ks : list Id)
    (acc : gmap Id Bar * str) (j : Id) (b : Bar) :
  justMe (cfg b) = false -> acc.1 !! j = Some b ->
  (foldl (stackStep d lines) acc ks).1 !! j = Some b.
Proof.
  intros Hjm. revert acc. induction ks as [|k ks IH]; intros acc Hb; [done|].
  simpl. apply IH. unfold stackStep.
  destruct (acc.1 !! k) as [c|] eqn:Hc; [|done].
  destruct (lines !! k); [|done]. simpl.
  destruct (justMe (cfg c)) eqn:Hjc; [|done].
  destruct (decide (k = j)) as [->|Hne].
  - rewrite Hb in Hc. injection Hc as <-. congruence.
  - by rewrite lookup_insert_ne.
Qed.

Lemma two_members (l : list Id) (i j : Id) :
  i ∈ l -> j ∈ l -> i <> j -> (1 <? length l)%nat = true.
Proof.
  intros Hi Hj Hne. apply Nat.ltb_lt.
  destruct l as [|x [|y l]]; cbn [length]; [| |lia].
  - by apply elem_of_nil in Hi.
  - apply list_elem_of_singleton in Hi, Hj. congruence.
Qed.

Lemma keys_member (lines : gmap Id str) (n : nat) (j : Id) :
  j ∈ keys lines n <-> is_Some (lines !! j) /\ (1 <= j <= n)%nat.
Proof.
  unfold keys. rewrite list_elem_of_filter, elem_of_seq. split; intros [H1 H2]; split; (done || lia).
Qed.

(** The heap after [draw] at another bar [j] that has a line. *)
Lemma draw_other (i j : Id) (d : Z) (fs : Bar * str) (w : World) (b : Bar) (s : str) :
  j <> i -> heap w !! j = Some b -> barLines w !! j = Some s ->
  (1 <= i <= barInc w)%nat -> (1 <= j <= barInc w)%nat ->
  heap (draw i d fs w) !! j
  = Some (if justMe (cfg b) then set_debounceLimit (Some d) b else b).
Proof.
  intros Hne Hb Hs Hi Hj. unfold draw.
  set (w1 := set_barLines _ _).
  assert (Hb1 : heap w1 !! j = Some b).
  { unfold w1. cbn [heap set_barLines set_heap]. by rewrite lookup_insert_ne. }
  assert (Hs1 : barLines w1 !! j = Some s).
  { unfold w1. cbn [barLines set_barLines set_heap]. by rewrite lookup_insert_ne. }
  assert (Hki : i ∈ keys (barLines w1) (barInc w1)).
  { apply keys_member. split; [|exact Hi]. unfold w1. cbn [barLines set_barLines set_heap].
    rewrite lookup_insert_eq. by eexists. }
  assert (Hkj : j ∈ keys (barLines w1) (barInc w1)).
  { apply keys_member. split; [|exact Hj]. rewrite Hs1. by eexists. }
  rewrite (two_members _ i j Hki Hkj) by done.
  set (hb := foldl _ _ _).
  assert (Hhb : hb.1 !! j = Some (if justMe (cfg b) then set_debounceLimit (Some d) b else b)).
  { unfold hb. destruct (justMe (cfg b)) eqn:Hjm.
    - by apply (stack_assign d _ _ _ j b s).
    - by apply stack_skip. }
  cbv zeta.
  destruct (hb.1 !! i) as [me2|]; [|exact Hhb].
  destruct (negb (bool_decide (lastDraw me2 = fs.2)) && negb (complete me2)); [|exact Hhb].
  cbn [heap update set_heap emit]. by rewrite lookup_alter_ne.
Qed.

(** The drawing bar itself, when another bar has a line. *)
Lemma draw_self (i j : Id) (d : Z) (fs : Bar * str) (w : World) (s : str) :
  j <> i -> barLines w !! j = Some s -> justMe (cfg fs.1) = true ->
  (1 <= i <= barInc w)%nat -> (1 <= j <= barInc w)%nat ->
  exists me', heap (draw i d fs w) !! i = Some me' /\ debounceLimit me' = Some d.
Proof.
  intros Hne Hs Hjm Hi Hj. unfold draw.
  set (w1 := set_barLines _ _).
  assert (Hb1 : heap w1 !! i = Some fs.1).
  { unfold w1. cbn [heap set_barLines set_heap]. by rewrite lookup_insert_eq. }
  assert (Hs1 : barLines w1 !! i = Some fs.2).
  { unfold w1. cbn [barLines set_barLines set_heap]. by rewrite lookup_insert_eq. }
  assert (Hki : i ∈ keys (barLines w1) (barInc w1)).
  { apply keys_member. split; [|exact Hi]. rewrite Hs1. by eexists. }
  assert (Hkj : j ∈ keys (barLines w1) (barInc w1)).
  { apply keys_member. split; [|exact Hj]. unfold w1. cbn [barLines set_barLines set_heap].
    rewrite lookup_insert_ne by done. rewrite Hs. by eexists. }
  rewrite (two_members _ i j Hki Hkj) by done.
  set (hb := foldl _ _ _).
  assert (Hhb : hb.1 !! i = Some (set_debounceLimit (Some d) fs.1)).
  { unfold hb. by apply (stack_assign d _ _ _ i fs.1 fs.2). }
  cbv zeta. rewrite Hhb.
  match goal with |- context [if ?c then _ else _] => destruct c end.
  - eexists. cbn [heap update set_heap emit]. rewrite lookup_alter_eq, Hhb. by split.
  - eexists. by split.
Qed.

Lemma noDebounce_nonzero (d : Z) : d <> 0 -> noDebounce (Some d) = false.
Proof. by destruct d. Qed.

(** X11.  When a bar draws while another bar has a line on the terminal,
    every such bar with [justMe] set gets the drawing bar's [delay] as its
    debounce limit, whatever [debounce] it was constructed with, and a bar
    without [justMe] is left untouched; the drawing bar takes its own delay
    too when it has [justMe].  From then on a render of the affected bar arms
    a timer instead of drawing. *)
Theorem drawing_shares_the_delay (e : Env) (i j : Id) (w : World) (me b : Bar) (s : str) :
  heap w !! i = Some me -> noRender (cfg me) = false ->
  j <> i -> heap w !! j = Some b -> barLines w !! j = Some s ->
  (1 <= i <= barInc w)%nat -> (1 <= j <= barInc w)%nat ->
  let w' := doRender e i w in
  heap w' !! j
  = Some (if justMe (cfg b) then set_debounceLimit (Some (delay (cfg me))) b else b)
  /\ (justMe (cfg me) = true ->
      exists me', heap w' !! i = Some me' /\ debounceLimit me' = Some (delay (cfg me)))
  /\ (justMe (cfg b) = true -> delay (cfg me) <> 0 ->
      curr b <> total (cfg b) -> writeLimit b = None ->
      forall e', render e' j w' = schedule j w').
Proof.
  intros Hme Hnr Hne Hb Hs Hi Hj w'.
  assert (Hj' : heap w' !! j
    = Some (if justMe (cfg b) then set_debounceLimit (Some (delay (cfg me))) b else b)).
  { unfold w'. rewrite (doRender_unfold e i w me Hme Hnr). by apply (draw_other i j _ _ w b s). }
  split; [exact Hj'|]. split.
  - intros Hjm. unfold w'. rewrite (doRender_unfold e i w me Hme Hnr).
    destruct (doFormat_fields e me (title (cfg me) ++ lit " " ++ fmt (cfg me)))
      as (_ & Hcfg & _).
    revert Hcfg. generalize (doFormat e me (title (cfg me) ++ lit " " ++ fmt (cfg me))).
    intros fs Hcfg. apply (draw_self i j _ fs w s); try done. by rewrite Hcfg.
  - intros Hjm Hd Hc Hwl e'. rewrite Hjm in Hj'.
    rewrite (render_running e' j w' _ Hj') by exact Hc.
    cbn [debounceLimit set_debounceLimit writeLimit].
    by rewrite (noDebounce_nonzero _ Hd), Hwl.
Qed.

Lemma drawing_shares_the_delay_witness :
  let o1 := mkOptions (JNumber 10) (Some (lit ":current")) None None None None None
              HAbsent HAbsent None true false false None None HAbsent in
  let o2 := mkOptions (JNumber 10) (Some (lit ":current")) None None None None None
              HAbsent HAbsent None false false false None (Some 250) HAbsent in
  let w := run [ (env0, New o1); (env0, New o2); (env0, Tick 1%nat None) ] initial in
  let me := default (construct env0 2%nat o2 10) (heap w !! 2%nat) in
  let b := default (construct env0 1%nat o1 10) (heap w !! 1%nat) in
  (heap w !! 2%nat = Some me /\ noRender (cfg me) = false /\ 1%nat <> 2%nat
   /\ heap w !! 1%nat = Some b /\ barLines w !! 1%nat = Some (lit "-> 1")
   /\ (1 <= 2 <= barInc w)%nat /\ (1 <= 1 <= barInc w)%nat)
  /\ debounceLimit b = None
  /\ exists b', heap (doRender env0 2%nat w) !! 1%nat = Some b'
       /\ debounceLimit b' = Some 250.
Proof.
  intros o1 o2 w me b.
  assert (Hme : heap w !! 2%nat = Some me) by (vm_compute; reflexivity).
  assert (Hnr : noRender (cfg me) = false) by (vm_compute; reflexivity).
  assert (Hne : 1%nat <> 2%nat) by discriminate.
  assert (Hb : heap w !! 1%nat = Some b) by (vm_compute; reflexivity).
  assert (Hs : barLines w !! 1%nat = Some (lit "-> 1")) by (vm_compute; reflexivity).
  assert (Hi : (1 <= 2 <= barInc w)%nat) by (vm_compute; split; repeat constructor).
  assert (Hj : (1 <= 1 <= barInc w)%nat) by (vm_compute; split; repeat constructor).
  split; [exact (conj Hme (conj Hnr (conj Hne (conj Hb (conj Hs (conj Hi Hj))))))|].
  split; [vm_compute; reflexivity|].
  pose proof (proj1 (drawing_shares_the_delay env0 2%nat 1%nat w me b _ Hme Hnr Hne Hb Hs Hi Hj))
    as H.
  eexists. split; [exact H|]. vm_compute. reflexivity.
Defined.

End SharingFacts.

(* ===================================================================== *)
(** * Counting *)
(* ===================================================================== *)

Module CountFacts.
Import JS Model Spec Sample Notions StringFacts FormatFacts RenderFacts WorldFacts
  SamplerFacts TickFacts TimerFacts LifecycleFacts.

#[local] Opaque doFormat.

(** [render] assigns none of the counters, on either path. *)
Lemma render_counts (e : Env) (i : Id) (w : World) (me : Bar) :
  heap w !! i = Some me ->
  exists me', heap (render e i w) !! i = Some me'
    /\ curr me' = curr me /\ sample me' = sample me
    /\ timeSamples me' = timeSamples me /\ opsPerSec me' = opsPerSec me
    /\ cfg me' = cfg me.
Proof.
  intros Hme. destruct (decide (curr me = total (cfg me))) as [Heq|Hne].
  - rewrite (render_completing e i w me Hme Heq). cbv zeta.
    set (wa := update i (set_sampleTimer false) w).
    assert (Ha : heap wa !! i = Some (set_sampleTimer false me)).
    { unfold wa. by rewrite lookup_update_eq, Hme. }
    destruct (doRender_core e i i wa _ Ha) as (b & Hb & Hcb & _).
    apply core_fields in Hcb as (_ & Hcfg & Hcurr & Hsam & _ & Hops & _ & Hts & _).
    cbn in Hcfg, Hcurr, Hsam, Hops, Hts.
    set (w1 := update i buildReport (doRender e i wa)).
    assert (H1 : heap w1 !! i = Some (buildReport b)).
    { unfold w1. by rewrite lookup_update_eq, Hb. }
    destruct (onComplete (cfg me)).
    + set (w2 := update i (set_complete true) (emit [OnComplete i] (terminate i w1))).
      assert (H2 : heap w2 !! i = Some (set_complete true (buildReport b))).
      { unfold w2. rewrite lookup_update_eq. cbn [heap emit]. by rewrite heap_terminate, H1. }
      exists (set_complete true (buildReport b)). split.
      * destruct (logResult (cfg me)); [by rewrite heap_logReport|done].
      * cbn. by repeat split.
    + exists (buildReport b). split; [exact H1|]. cbn. by repeat split.
  - destruct (render_running_core e i w me Hme Hne) as (me' & Hme' & Hc).
    apply core_fields in Hc as (_ & Hcfg & Hcurr & Hsam & _ & Hops & _ & Hts & _).
    exists me'. by repeat split.
Qed.

(** One [tick], whichever branch it takes. *)
Lemma tick_counts (e : Env) (i : Id) (len : option Z) (w : World) (me : Bar) :
  heap w !! i = Some me ->
  exists me', heap (tick e i len w) !! i = Some me'
    /\ curr me' = curr me + lenOf len /\ sample me' = sample me + lenOf len
    /\ timeSamples me' = timeSamples me /\ opsPerSec me' = opsPerSec me
    /\ cfg me' = cfg me.
Proof.
  intros Hme. destruct (Z_lt_le_dec (total (cfg me)) (curr me + lenOf len)) as [Hlt|Hle].
  - rewrite (tick_beyond e i len w me Hme Hlt). rewrite !lookup_update_eq, Hme.
    eexists. split; [reflexivity|]. cbn. by repeat split.
  - destruct (tick_unfold e i len w me Hme Hle) as (w3 & me3 & -> & H3 & Hc & _).
    apply core_fields in Hc as (_ & Hcfg & Hcurr & Hsam & _ & Hops & _ & Hts & _).
    cbn in Hcfg, Hcurr, Hsam, Hops, Hts.
    destruct (render_counts e i w3 me3 H3) as (me' & Hme' & Hc' & Hs' & Ht' & Ho' & Hg').
    exists me'. split; [exact Hme'|]. repeat split; congruence.
Qed.

Lemma ticks_counts (i : Id) (l : list (Env * option Z)) (w : World) (me : Bar) :
  heap w !! i = Some me ->
  exists me', heap (ticks i l w) !! i = Some me'
    /\ curr me' = curr me + sumLen l /\ sample me' = sample me + sumLen l
    /\ timeSamples me' = timeSamples me /\ opsPerSec me' = opsPerSec me
    /\ cfg me' = cfg me.
Proof.
  revert w me. induction l as [|[e len] l IH]; intros w me Hme.
  - exists me. cbn. repeat split; first [done | lia].
  - destruct (tick_counts e i len w me Hme) as (me1 & H1 & Hc1 & Hs1 & Ht1 & Ho1 & Hg1).
    destruct (IH _ _ H1) as (me' & Hme' & Hc & Hs & Ht & Ho & Hg).
    exists me'. split; [exact Hme'|].
    change (sumLen ((e, len) :: l)) with (lenOf len + sumLen l).
    repeat split; first [congruence | lia].
Qed.

Lemma sums_last (c : Z) (l : list (Env * option Z)) :
  safe c -> Forall safe (sums c l) -> safe (c + sumLen l).
Proof.
  revert c. induction l as [|x l IH]; intros c Hc Hs.
  - change (sumLen []) with 0. by rewrite Z.add_0_r.
  - change (sumLen (x :: l)) with (lenOf x.2 + sumLen l). cbn [sums] in Hs.
    inversion Hs as [|? ? Hx Hl]; subst. rewrite Z.add_assoc. by apply IH.
Qed.

(** X12.  Over a sequence of [tick] calls with integer deltas that keeps
    [curr] and the tally [sample] within the exact range (between [-2^53] and
    [2^53], where the additions of the source are those of the integers),
    whether the bar is below, at or beyond its total, [curr] and [sample]
    both grow by the sum of the deltas, and the sample window and the rate
    are not touched.  If the sampler is still armed, its next firing pushes
    exactly that tally and resets it, leaving [curr] alone. *)
Theorem ticks_feed_the_sampler (i : Id) (l : list (Env * option Z)) (w : World) (me : Bar) :
  heap w !! i = Some me ->
  safe (curr me) -> safe (sample me) -> safe (total (cfg me)) ->
  Forall (fun x => safe (lenOf x.2)) l ->
  Forall safe (sums (curr me) l) -> Forall safe (sums (sample me) l) ->
  exists me', heap (ticks i l w) !! i = Some me'
    /\ curr me' = curr me + sumLen l /\ sample me' = sample me + sumLen l
    /\ safe (curr me') /\ safe (sample me')
    /\ timeSamples me' = timeSamples me /\ opsPerSec me' = opsPerSec me
    /\ (sampleTimer me' = true ->
        exists me'', heap (samplerFires i (ticks i l w)) !! i = Some me''
          /\ timeSamples me'' = pushed (timeSamples me) (sample me + sumLen l)
          /\ sample me'' = 0 /\ curr me'' = curr me + sumLen l).
Proof.
  intros Hme Sc Ss _ _ Hsc Hss.
  destruct (ticks_counts i l w me Hme) as (me' & Hme' & Hc & Hs & Ht & Ho & _).
  exists me'. split; [exact Hme'|]. split; [exact Hc|]. split; [exact Hs|].
  split; [rewrite Hc; by apply sums_last|]. split; [rewrite Hs; by apply sums_last|].
  split; [exact Ht|]. split; [exact Ho|].
  intros Hst. unfold samplerFires. rewrite Hme', Hst, lookup_update_eq, Hme'.
  eexists. split; [reflexivity|]. unfold sampler, pushed.
  cbn [timeSamples sample curr set_opsPerSec set_timeSamples set_sample].
  rewrite Ht, Hs. by repeat split.
Qed.

Lemma ticks_feed_the_sampler_witness :
  let o := mkOptions (JNumber 3) None None None None None None
             HAbsent HAbsent None false false false None None HAbsent in
  let w := run [ (env0, New o) ] initial in
  let l := [ (env0, Some 2); (env0, None); (env0, Some 4) ] in
  let me := construct env0 1%nat o 3 in
  (heap w !! 1%nat = Some me
   /\ safe (curr me) /\ safe (sample me) /\ safe (total (cfg me))
   /\ Forall (fun x => safe (lenOf x.2)) l
   /\ Forall safe (sums (curr me) l) /\ Forall safe (sums (sample me) l))
  /\ exists me', heap (ticks 1%nat l w) !! 1%nat = Some me'
       /\ curr me' = 7 /\ sample me' = 7.
Proof.
  intros o w l me.
  assert (Hme : heap w !! 1%nat = Some me) by (vm_compute; reflexivity).
  assert (S1 : safe (curr me)) by (vm_compute; split; discriminate).
  assert (S2 : safe (sample me)) by (vm_compute; split; discriminate).
  assert (S3 : safe (total (cfg me))) by (vm_compute; split; discriminate).
  assert (S4 : Forall (fun x => safe (lenOf x.2)) l)
    by (repeat constructor; vm_compute; discriminate).
  assert (S5 : Forall safe (sums (curr me) l))
    by (repeat constructor; vm_compute; discriminate).
  assert (S6 : Forall safe (sums (sample me) l))
    by (repeat constructor; vm_compute; discriminate).
  split; [exact (conj Hme (conj S1 (conj S2 (conj S3 (conj S4 (conj S5 S6))))))|].
  destruct (ticks_feed_the_sampler 1%nat l w me Hme S1 S2 S3 S4 S5 S6)
    as (me' & Hme' & Hc & Hs & _).
  exists me'. exact (conj Hme' (conj Hc Hs)).
Defined.







End CountFacts.

(* ===================================================================== *)
(** * What a call leaves alone *)
(* ===================================================================== *)

Module IsolationFacts.
Import JS Model Spec Sample Notions StringFacts FormatFacts RenderFacts WorldFacts
  SamplerFacts TickFacts TimerFacts.

#[local] Opaque doFormat.

Lemma apart_refl (i : Id) (w : World) : apart i w w.
Proof. by intros j _. Qed.

Lemma apart_trans (i : Id) (w1 w2 w3 : World) :
  apart i w1 w2 -> apart i w2 w3 -> apart i w1 w3.
Proof. intros H1 H2 j Hj. by rewrite H2, H1. Qed.

Lemma apart_update (i : Id) (f : Bar -> Bar) (w0 w : World) :
  apart i w0 w -> apart i w0 (update i f w).
Proof.
  intros H j Hj. rewrite lookup_update, decide_False by done. by apply H.
Qed.

Lemma apart_heap (i : Id) (w0 w w' : World) :
  heap w' = heap w -> apart i w0 w -> apart i w0 w'.
Proof. intros Hh H j Hj. rewrite Hh. by apply H. Qed.

Lemma apart_doRender (e : Env) (i : Id) (w0 w : World) :
  apart i w0 w -> apart i w0 (doRender e i w).
Proof.
  intros H. apply (apart_trans i w0 w); [exact H|]. intros j Hj.
  destruct (heap w !! i) as [me|] eqn:Hme.
  - destruct (noRender (cfg me)) eqn:Hnr.
    + unfold doRender. by rewrite Hme, Hnr.
    + destruct (doRender_inv e i w me Hme Hnr)
        as (fs & me' & big & _ & _ & _ & _ & _ & _ & _ & _ & _ & _ & _ & _ & _ & _ & _
            & Hoth & _).
      by apply Hoth.
  - unfold doRender. by rewrite Hme.
Qed.

Lemma apart_terminate (i : Id) (w0 w : World) :
  apart i w0 w -> apart i w0 (terminate i w).
Proof. apply apart_heap, heap_terminate. Qed.

Lemma apart_logReport (i : Id) (w0 w : World) :
  apart i w0 w -> apart i w0 (logReport i w).
Proof. apply apart_heap, heap_logReport. Qed.

Lemma apart_emit (i : Id) (es : list event) (w0 w : World) :
  apart i w0 w -> apart i w0 (emit es w).
Proof. by apply apart_heap. Qed.

Lemma apart_schedule (i : Id) (w0 w : World) :
  apart i w0 w -> apart i w0 (schedule i w).
Proof.
  intros H. unfold schedule. apply apart_update.
  by apply (apart_heap i w0 w).
Qed.

Ltac isolate :=
  repeat first
    [ assumption
    | apply apart_refl
    | apply apart_emit
    | apply apart_terminate
    | apply apart_logReport
    | apply apart_doRender
    | apply apart_schedule
    | apply apart_update
    | match goal with
      | |- apart _ _ (if ?c then _ else _) => destruct c
      | |- apart _ _ (match ?x with Some _ => _ | None => _ end) => destruct x
      end ].

Lemma apart_render (e : Env) (i : Id) (w0 w : World) :
  apart i w0 w -> apart i w0 (render e i w).
Proof. intros H. unfold render. isolate. Qed.

Lemma apart_setTick (e : Env) (i : Id) (v : Z) (w0 w : World) :
  apart i w0 w -> apart i w0 (setTick e i v w).
Proof.
  intros H. unfold setTick. destruct (heap w !! i); [|done]. cbv zeta.
  destruct (_ <? _); [isolate|]. apply apart_render. isolate.
Qed.

Lemma apart_tick (e : Env) (i : Id) (len : option Z) (w0 w : World) :
  apart i w0 w -> apart i w0 (tick e i len w).
Proof.
  intros H. unfold tick. destruct (heap w !! i); [|done]. cbv zeta.
  destruct (_ <? _); [isolate|]. apply apart_render, apart_emit. isolate.
Qed.

Lemma apart_timeoutFires (e : Env) (h : Handle) (i : Id) (w : World) :
  armed h (timeouts w) = Some i -> apart i w (timeoutFires e h w).
Proof.
  intros Ha. unfold timeoutFires. rewrite Ha. cbv zeta.
  apply apart_update, apart_doRender. by apply (apart_heap i w w); [|apply apart_refl].
Qed.

(** X15.  A call on one bar changes no field of any other bar's object
    except, through drawing, [debounceLimit]: counters, sample window, rate,
    flags, report, last frame and timer handle of the other bars are as
    before.  The same holds for a debounce timer that fires for the bar. *)
Theorem calls_leave_other_bars (e : Env) (a : action) (i j : Id) (w : World) :
  j <> i ->
  (target a = Some i ->
   eraseDeb <$> heap (step w (e, a)) !! j = eraseDeb <$> heap w !! j)
  /\ (forall h, armed h (timeouts w) = Some i ->
      eraseDeb <$> heap (timeoutFires e h w) !! j = eraseDeb <$> heap w !! j).
Proof.
  intros Hne. split.
  - intros Ht. revert j Hne. change (apart i w (step w (e, a))).
    destruct a; cbn in Ht; try discriminate; injection Ht as ->; cbn [step fst snd].
    + apply apart_tick, apart_refl.
    + apply apart_setTick, apart_refl.
    + apply apart_render, apart_refl.
    + apply apart_update, apart_refl.
    + unfold interrupt. destruct (heap w !! i); isolate.
    + unfold clearLine. isolate.
    + isolate.
    + isolate.
    + unfold samplerFires. isolate.
  - intros h Ha. by apply (apart_timeoutFires e h i w Ha).
Qed.

Lemma calls_leave_other_bars_witness :
  let o := mkOptions (JNumber 10) (Some (lit ":current")) None None None None None
             HAbsent HAbsent None false false false None None HAbsent in
  let w := run [ (env0, New o); (env0, New o); (env0, Tick 2%nat None) ] initial in
  (2%nat <> 1%nat /\ target (Tick 1%nat (Some 3)) = Some 1%nat)
  /\ eraseDeb <$> heap (step w (env0, Tick 1%nat (Some 3))) !! 2%nat
     = eraseDeb <$> heap w !! 2%nat.
Proof.
  intros o w.
  assert (Hne : 2%nat <> 1%nat) by discriminate.
  assert (Ht : target (Tick 1%nat (Some 3)) = Some 1%nat) by reflexivity.
  split; [exact (conj Hne Ht)|].
  exact (proj1 (calls_leave_other_bars env0 (Tick 1%nat (Some 3)) 1%nat 2%nat w Hne) Ht).
Defined.

(** X16.  [interrupt] after a drawing render: the terminal gets the line
    clear, the message, a line feed and then the bar's own frame again (its
    [lastDraw], not the stacked string of all bars that the render wrote).
    No object changes, and a render at the same clock reading afterwards
    writes nothing, since the frame still equals [lastDraw]. *)
Theorem interrupt_redisplays_the_frame (e : Env) (i : Id) (m : str) (w : World) (me : Bar) :
  heap w !! i = Some me -> noRender (cfg me) = false ->
  complete me = false -> lastDraw me <> frame e me ->
  let w1 := interrupt i m (doRender e i w) in
  exists big,
    trace w1
    = trace w ++ [ClearLine i (Some 1); CursorTo i 0; Write i big]
        ++ [ClearLine i None; CursorTo i 0; Write i m; Write i [10%N]; Write i (frame e me)]
    /\ (justMe (cfg me) = true -> big = frame e me)
    /\ heap w1 = heap (doRender e i w)
    /\ trace (doRender e i w1) = trace w1.
Proof.
  intros Hme Hnr Hcp Hld w1.
  destruct (doRender_inv e i w me Hme Hnr)
    as (fs & me' & big & Hfs & Hcfg & Hcurr & Hops & _ & _ & _ & _ & _ & _ & _ & _ & Hme' & Heq
        & Htr & _ & _ & _ & _ & _ & _ & Hjm).
  rewrite Hfs in Heq, Htr, Hjm.
  rewrite bool_decide_eq_false_2, Hcp in Heq, Htr by done. cbn [negb andb] in Heq, Htr.
  assert (Hl' : lastDraw me' = frame e me) by (rewrite Heq; reflexivity).
  assert (Hw1 : w1 = emit [ClearLine i None; CursorTo i 0; Write i m; Write i [10%N];
                           Write i (frame e me)] (doRender e i w)).
  { unfold w1, interrupt. by rewrite Hme', Hl'. }
  exists big. rewrite Hw1. cbn [trace emit heap]. rewrite Htr, <- app_assoc.
  split; [reflexivity|]. split; [exact Hjm|]. split; [reflexivity|].
  set (w2 := emit _ _).
  assert (H2 : heap w2 !! i = Some me') by exact Hme'.
  rewrite (doRender_quiet e i w2 me' H2).
  - unfold w2. cbn [trace emit]. by rewrite Htr, <- app_assoc.
  - left. rewrite Hl'. apply frame_ext; rewrite Heq; cbn; congruence.
Qed.

Lemma interrupt_redisplays_the_frame_witness :
  let o := mkOptions (JNumber 10) (Some (lit ":current")) None None None None (Some 100)
             HAbsent HAbsent None true false false None None HAbsent in
  let w := run [ (env0, New o); (env0, Tick 1%nat None) ] initial in
  let me := default (construct env0 1%nat o 10) (heap w !! 1%nat) in
  (heap w !! 1%nat = Some me /\ noRender (cfg me) = false
   /\ complete me = false /\ lastDraw me <> frame env0 me)
  /\ writes (trace (interrupt 1%nat (lit "note") (doRender env0 1%nat w)))
     = [lit "-> 1"; lit "note"; [10%N]; lit "-> 1"].
Proof.
  intros o w me.
  assert (Hme : heap w !! 1%nat = Some me) by (vm_compute; reflexivity).
  assert (Hnr : noRender (cfg me) = false) by (vm_compute; reflexivity).
  assert (Hcp : complete me = false) by (vm_compute; reflexivity).
  assert (Hld : lastDraw me <> frame env0 me) by (vm_compute; discriminate).
  split; [exact (conj Hme (conj Hnr (conj Hcp Hld)))|].
  destruct (interrupt_redisplays_the_frame env0 1%nat (lit "note") w me Hme Hnr Hcp Hld)
    as (big & Htr & Hjm & _).
  rewrite Htr, (Hjm eq_refl). vm_compute. reflexivity.
Defined.

End IsolationFacts.
